(** * Keymap optimizer: the boolean program built by [optimize_keymap]

    A shallow embedding of [src/keymap_optimizer.py].  The function builds a
    CP-SAT model (boolean variables, linear and enforced boolean constraints,
    a weighted linear objective), hands it to an external solver and decodes
    the solved assignment variables into a position-indexed array.

    The solver is an external collaborator: it is a parameter of
    [optimize_keymap], and what is known about it (it answers with a
    valuation that satisfies the model when it says OPTIMAL or FEASIBLE) is a
    hypothesis of the theorems that need it.  The penalties are integers, as
    the docstring of [optimize_keymap] has them ([list of list of int]); the
    script passes binary64 numbers, and what line 60 computes on them is
    [float_coefficient] below.  The solver library takes 64-bit integer
    coefficients: the embedding is that of the calls whose coefficients fit
    them ([int64]).  The two [print] calls of the function and the reading of
    the corpus by the script are input and output only and are left out. *)

From Stdlib Require Import Floats.
From Stdlib Require Uint63.
From Stdlib Require Import String Ascii.
From Stdlib Require Import List ZArith Lia Bool Arith Permutation.
Import ListNotations.

(** ** Python values used by the program *)

(** A letter is a Python [str]; the corpus is a [str] too. *)
Definition symbol := string.

Definition symbol_eqb (a b : symbol) : bool := String.eqb a b.

(** *** Exceptions

    The only exception the body of [optimize_keymap] can raise by itself is the
    [IndexError] of a list subscript ([penalty2[k1][k2]], [result[key] = ...]). *)
Inductive exn : Type := IndexError.

Inductive M (A : Type) : Type :=
| Raise (e : exn)
| Return (a : A).

Arguments Raise {A} e.
Arguments Return {A} a.

Definition bind {A B : Type} (c : M A) (k : A -> M B) : M B :=
  match c with
  | Raise e => Raise e
  | Return a => k a
  end.

Notation "x <- c ;; k" := (bind c (fun x => k))
  (at level 61, c at next level, right associativity).

Fixpoint mapM {A B : Type} (f : A -> M B) (l : list A) : M (list B) :=
  match l with
  | [] => Return []
  | x :: t => y <- f x ;; ys <- mapM f t ;; Return (y :: ys)
  end.

Fixpoint foldM {A B : Type} (f : B -> A -> M B) (l : list A) (acc : B) : M B :=
  match l with
  | [] => Return acc
  | x :: t => acc' <- f acc x ;; foldM f t acc'
  end.

(** [l[i]] for [i >= 0]. *)
Definition getitem {A : Type} (l : list A) (i : nat) : M A :=
  match nth_error l i with
  | Some x => Return x
  | None => Raise IndexError
  end.

(** [l[i] = x] for [i >= 0]: the list with slot [i] replaced. *)
Fixpoint setitem {A : Type} (l : list A) (i : nat) (x : A) : M (list A) :=
  match l, i with
  | [], _ => Raise IndexError
  | _ :: t, O => Return (x :: t)
  | h :: t, S i' => t' <- setitem t i' x ;; Return (h :: t')
  end.

(** *** [str.count]

    [s.count(sub)] is the number of non-overlapping occurrences of [sub] in
    [s], found greedily from the left: after a match the scan resumes behind
    it.  [skip] is the number of characters still covered by the last match.
    For the empty [sub] Python answers [len(s) + 1]. *)
Fixpoint count_scan (sub s : string) (skip : nat) : nat :=
  match s with
  | EmptyString => 0
  | String _ s' =>
      match skip with
      | S skip' => count_scan sub s' skip'
      | O =>
          if prefix sub s
          then S (count_scan sub s' (String.length sub - 1))
          else count_scan sub s' 0
      end
  end.

Definition count (s sub : string) : nat :=
  match sub with
  | EmptyString => S (String.length s)
  | String _ _ => count_scan sub s 0
  end.

(** *** [enumerate], [range], [itertools.permutations(_, 2)],
        [itertools.combinations(_, 2)] *)

Definition range (n : nat) : list nat := seq 0 n.

Definition enumerate {A : Type} (l : list A) : list (nat * A) :=
  combine (seq 0 (length l)) l.

(** All pairs of elements at two different indices, in index order. *)
Definition permutations2 {A : Type} (pool : list A) : list (A * A) :=
  flat_map
    (fun ix : nat * A =>
       flat_map
         (fun jy : nat * A =>
            if Nat.eqb (fst ix) (fst jy) then [] else [(snd ix, snd jy)])
         (enumerate pool))
    (enumerate pool).

(** All pairs of elements at indices [i < j], in index order. *)
Definition combinations2 {A : Type} (pool : list A) : list (A * A) :=
  flat_map
    (fun ix : nat * A =>
       flat_map
         (fun jy : nat * A =>
            if Nat.ltb (fst ix) (fst jy) then [(snd ix, snd jy)] else [])
         (enumerate pool))
    (enumerate pool).

(** ** The CP-SAT model *)

(** The dictionary [variables] is keyed by tuples: [(letter, key)] for an
    assignment variable and [(l1, l2, k1, k2)] for a linearization variable.
    Every key is created before the first constraint reads the dictionary, so
    a variable that is read is identified with its key.  When a letter is
    listed twice, [NewBoolVar] is called again for the same key and the
    dictionary keeps the later variable; the earlier one stays in the
    solver's model but is reached by no lookup, neither for a constraint nor
    for the objective nor by the decoder. *)
Inductive var : Type :=
| AVar (letter : symbol) (key : nat)
| LVar (l1 l2 : symbol) (k1 k2 : nat).

(** A literal: a variable or its [.Not()]. *)
Inductive literal : Type :=
| Pos (x : var)
| Neg (x : var).

Inductive constraint : Type :=
| SumEq (xs : list var) (rhs : Z)                 (* Add(Sum(xs) == rhs) *)
| SumLe (xs : list var) (rhs : Z)                 (* Add(Sum(xs) <= rhs) *)
| BoolAnd (lits : list literal) (enf : literal)   (* AddBoolAnd(lits).OnlyEnforceIf(enf) *)
| BoolOr (lits : list literal) (enf : literal).   (* AddBoolOr(lits).OnlyEnforceIf(enf) *)

(** What the calls on [model] leave in it: the keys of the created
    variables, one for every call of [NewBoolVar], the added constraints, and
    the two lists given to [Minimize(WeightedSum(expr, coef))]. *)
Record model : Type := Model {
  variables : list var;
  constraints : list constraint;
  obj_expr : list var;
  obj_coef : list Z
}.

(** A solved state of the boolean variables; [Value] is [solver.Value]. *)
Definition valuation := var -> bool.

Definition Value (v : valuation) (x : var) : Z := Z.b2z (v x).

Definition lit_true (v : valuation) (l : literal) : bool :=
  match l with
  | Pos x => v x
  | Neg x => negb (v x)
  end.

Fixpoint sumZ (l : list Z) : Z :=
  match l with
  | [] => 0%Z
  | x :: t => (x + sumZ t)%Z
  end.

(** The values of [LinearExpr.Sum(xs)] and of [LinearExpr.WeightedSum(xs, cs)]
    ([xs] and [cs] have the same length where the program builds them). *)
Definition Sum (v : valuation) (xs : list var) : Z := sumZ (map (Value v) xs).

Definition WeightedSum (v : valuation) (xs : list var) (cs : list Z) : Z :=
  sumZ (map (fun xc : var * Z => (snd xc * Value v (fst xc))%Z) (combine xs cs)).

Definition holds (v : valuation) (c : constraint) : bool :=
  match c with
  | SumEq xs rhs => Z.eqb (Sum v xs) rhs
  | SumLe xs rhs => Z.leb (Sum v xs) rhs
  | BoolAnd lits enf => implb (lit_true v enf) (forallb (lit_true v) lits)
  | BoolOr lits enf => implb (lit_true v enf) (existsb (lit_true v) lits)
  end.

Definition feasible (m : model) (v : valuation) : bool :=
  forallb (holds v) (constraints m).

Definition objective_value (m : model) (v : valuation) : Z :=
  WeightedSum v (obj_expr m) (obj_coef m).

(** [v] minimizes the objective among the feasible valuations. *)
Definition optimal (m : model) (v : valuation) : Prop :=
  feasible m v = true /\
  forall v', feasible m v' = true -> (objective_value m v <= objective_value m v')%Z.

(** ** Building the model (lines 27-61) *)

(** Lines 28-36: the keys of the created variables. *)
Definition assignment_vars (letters : list symbol) : list var :=
  flat_map (fun letter => map (fun kx => AVar letter (fst kx)) (enumerate letters))
           letters.

Definition link_vars (letters : list symbol) : list var :=
  flat_map
    (fun ll : symbol * symbol =>
       map (fun kk : nat * nat => LVar (fst ll) (snd ll) (fst kk) (snd kk))
           (combinations2 (range (length letters))))
    (permutations2 letters).

(** Lines 39-40: every letter is on exactly one key. *)
Definition letter_constraints (letters : list symbol) : list constraint :=
  map (fun letter =>
         SumEq (map (fun kx => AVar letter (fst kx)) (enumerate letters)) 1)
      letters.

(** Lines 43-44: every key carries at most one letter. *)
Definition key_constraints (letters : list symbol) : list constraint :=
  map (fun kx : nat * symbol =>
         SumLe (map (fun letter => AVar letter (fst kx)) letters) 1)
      (enumerate letters).

(** Lines 47-50: the two enforced constraints of every linearization variable. *)
Definition link_constraints (letters : list symbol) : list constraint :=
  flat_map
    (fun ll : symbol * symbol =>
       flat_map
         (fun kk : nat * nat =>
            let (l1, l2) := ll in
            let (k1, k2) := kk in
            [ BoolAnd [Pos (AVar l1 k1); Pos (AVar l2 k2)] (Pos (LVar l1 l2 k1 k2));
              BoolOr [Neg (AVar l1 k1); Neg (AVar l2 k2)] (Neg (LVar l1 l2 k1 k2)) ])
         (combinations2 (range (length letters))))
    (permutations2 letters).

(** [penalty2[k1][k2]]. *)
Definition penalty_at (penalty2 : list (list Z)) (k1 k2 : nat) : M Z :=
  row <- getitem penalty2 k1 ;; getitem row k2.

(** Lines 53-60 with the frequency of a pair of letters as a parameter:
    the terms [(variable, coefficient)] in the order they are appended. *)
Definition objective_terms (freq : symbol -> symbol -> Z)
    (penalty2 : list (list Z)) (letters : list symbol) : M (list (var * Z)) :=
  tss <- mapM
    (fun ll : symbol * symbol =>
       let (l1, l2) := ll in
       let f := freq l1 l2 in
       mapM (fun kk : nat * nat =>
               let (k1, k2) := kk in
               p <- penalty_at penalty2 k1 k2 ;;
               Return (LVar l1 l2 k1 k2, (f * p)%Z))
            (combinations2 (range (length letters))))
    (permutations2 letters) ;;
  Return (concat tss).

(** Line 56: the frequency of the pair is [input_text.count(l1 + l2)]. *)
Definition frequency (input_text : string) (l1 l2 : symbol) : Z :=
  Z.of_nat (count input_text (l1 ++ l2)%string).

(** Lines 39-50: the constraints in the order they are added. *)
Definition model_constraints (letters : list symbol) : list constraint :=
  letter_constraints letters ++ key_constraints letters ++ link_constraints letters.

Definition build_model_with (freq : symbol -> symbol -> Z)
    (penalty2 : list (list Z)) (letters : list symbol) : M model :=
  terms <- objective_terms freq penalty2 letters ;;
  Return {| variables := assignment_vars letters ++ link_vars letters;
            constraints := model_constraints letters;
            obj_expr := map fst terms;
            obj_coef := map snd terms |}.

Definition build_model (penalty2 : list (list Z)) (letters : list symbol)
    (input_text : string) : M model :=
  build_model_with (frequency input_text) penalty2 letters.

(** ** Solving and decoding (lines 64-80) *)

Inductive status : Type :=
| UNKNOWN | MODEL_INVALID | FEASIBLE | INFEASIBLE | OPTIMAL.

Definition solved (st : status) : bool :=
  match st with
  | OPTIMAL | FEASIBLE => true
  | _ => false
  end.

(** Lines 76-77.  [solver.Value(x) > 0.5] on an integer value is
    [1 < 2 * Value x]. *)
Definition decode_step (v : valuation) (letter : symbol)
    (result : list (option symbol)) (key : nat) : M (list (option symbol)) :=
  if Z.ltb 1 (2 * Value v (AVar letter key))
  then setitem result key (Some letter)
  else Return result.

(** Lines 72-77. *)
Definition decode (v : valuation) (letters : list symbol)
    : M (list (option symbol)) :=
  foldM
    (fun result letter =>
       foldM (decode_step v letter) (range (length letters)) result)
    letters
    (repeat None (length letters)).

(** The external solver: a status and a value for every variable. *)
Definition solver := model -> status * valuation.

Definition optimize_keymap (solve : solver) (penalty2 : list (list Z))
    (letters : list symbol) (input_text : string)
    : M (option (list (option symbol))) :=
  m <- build_model penalty2 letters input_text ;;
  let (st, v) := solve m in
  if solved st
  then result <- decode v letters ;; Return (Some result)
  else Return None.

(** ** The coefficients when the penalties are [float]

    The script calls the function with [penalty_2gram], a matrix of binary64
    numbers (line 137), where the docstring announces integers.  Line 60,
    [freq * penalty2[k1][k2]], then converts the count to binary64 and
    multiplies with rounding.  A count is at most the length of the corpus;
    below [2^53] it converts exactly. *)
Definition float_of_count (f : Z) : float :=
  PrimFloat.of_uint63 (Uint63.of_Z f).

Definition float_coefficient (f : Z) (p : float) : float :=
  PrimFloat.mul (float_of_count f) p.

Definition penalty_at_float (penalty2 : list (list float)) (k1 k2 : nat)
    : M float :=
  row <- getitem penalty2 k1 ;; getitem row k2.

(** Lines 53-60 on a matrix of [float]. *)
Definition objective_terms_float (freq : symbol -> symbol -> Z)
    (penalty2 : list (list float)) (letters : list symbol)
    : M (list (var * float)) :=
  tss <- mapM
    (fun ll : symbol * symbol =>
       let (l1, l2) := ll in
       let f := freq l1 l2 in
       mapM (fun kk : nat * nat =>
               let (k1, k2) := kk in
               p <- penalty_at_float penalty2 k1 k2 ;;
               Return (LVar l1 l2 k1 k2, float_coefficient f p))
            (combinations2 (range (length letters))))
    (permutations2 letters) ;;
  Return (concat tss).

(** ** Definitions used to state the properties *)

(** The number of elements of [l], with multiplicity, on which [f] holds. *)
Definition countZ {A : Type} (f : A -> bool) (l : list A) : Z :=
  sumZ (map (fun a => Z.b2z (f a)) l).

(** The constraint system in logical form. *)
Record assignment_ok (letters : list symbol) (v : valuation) : Prop := {
  exactly_one_key :
    forall s, In s letters ->
      Sum v (map (AVar s) (range (length letters))) = 1%Z;
  at_most_one_letter :
    forall k, k < length letters ->
      (Sum v (map (fun s => AVar s k) letters) <= 1)%Z;
  link_is_and :
    forall l1 l2 k1 k2,
      In (l1, l2) (permutations2 letters) -> k1 < k2 -> k2 < length letters ->
      v (LVar l1 l2 k1 k2) = v (AVar l1 k1) && v (AVar l2 k2)
}.

(** The entry [penalty2[k1][k2]] where it exists. *)
Definition penalty_nth (penalty2 : list (list Z)) (k1 k2 : nat) : Z :=
  nth k2 (nth k1 penalty2 []) 0%Z.

(** An [n] by [n] matrix. *)
Definition square (n : nat) (penalty2 : list (list Z)) : Prop :=
  length penalty2 = n /\ Forall (fun row => length row = n) penalty2.

(** The terms of the objective when no subscript fails. *)
Definition objective_terms_of (freq : symbol -> symbol -> Z)
    (penalty2 : list (list Z)) (letters : list symbol) : list (var * Z) :=
  flat_map
    (fun ll : symbol * symbol =>
       map (fun kk : nat * nat =>
              (LVar (fst ll) (snd ll) (fst kk) (snd kk),
               (freq (fst ll) (snd ll) * penalty_nth penalty2 (fst kk) (snd kk))%Z))
           (combinations2 (range (length letters))))
    (permutations2 letters).

(** A frequency map with every count multiplied by [c]. *)
Definition scaled (c : Z) (freq : symbol -> symbol -> Z) : symbol -> symbol -> Z :=
  fun l1 l2 => (c * freq l1 l2)%Z.

(** The content of slot [key] after the decoding loops: the last letter of
    [letters] whose assignment variable on [key] is solved true, if any. *)
Definition slot (v : valuation) (letters : list symbol) (key : nat)
    : option symbol :=
  fold_left (fun old letter => if v (AVar letter key) then Some letter else old)
            letters None.

Definition slot_eq_dec (x y : option symbol) : {x = y} + {x <> y}.
Proof.
  decide equality. apply string_dec.
Defined.

(** The key of letter [s] in a decoded array: the first slot that holds it. *)
Fixpoint position (arr : list (option symbol)) (s : symbol) : nat :=
  match arr with
  | [] => 0
  | x :: t => if slot_eq_dec x (Some s) then 0 else S (position t s)
  end.

(** The cost of typing the corpus on a decoded array, computed from the
    array alone: every ordered pair of letters at two places of the alphabet
    weighs its frequency times the penalty of going from the key of the first
    letter to the key of the second. *)
Definition typing_cost (penalty2 : list (list Z)) (letters : list symbol)
    (input_text : string) (arr : list (option symbol)) : Z :=
  sumZ (map (fun ll : symbol * symbol =>
               (frequency input_text (fst ll) (snd ll)
                * penalty_nth penalty2 (position arr (fst ll))
                                       (position arr (snd ll)))%Z)
            (permutations2 letters)).

(** What the composed objective amounts to on a decoded array: the pairs
    whose first letter sits on the lower key. *)
Definition one_way_cost (penalty2 : list (list Z)) (letters : list symbol)
    (input_text : string) (arr : list (option symbol)) : Z :=
  sumZ (map (fun ll : symbol * symbol =>
               if Nat.ltb (position arr (fst ll)) (position arr (snd ll))
               then (frequency input_text (fst ll) (snd ll)
                     * penalty_nth penalty2 (position arr (fst ll))
                                            (position arr (snd ll)))%Z
               else 0%Z)
            (permutations2 letters)).

(** The number of positions of [s] at which [sub] starts, occurrences that
    overlap counted one by one. *)
Fixpoint occurrences (sub s : string) : nat :=
  match s with
  | EmptyString => 0
  | String _ s' => (if prefix sub s then 1 else 0) + occurrences sub s'
  end.

(** The one-character string of a character, and the bigram of two. *)
Definition char (c : ascii) : symbol := String c EmptyString.

Definition bigram (c1 c2 : ascii) : string := String c1 (String c2 EmptyString).

(** The contract of the external solver: when it answers OPTIMAL or
    FEASIBLE, its values satisfy every constraint of the model. *)
Definition solver_sound (solve : solver) : Prop :=
  forall m, solved (fst (solve m)) = true -> feasible m (snd (solve m)) = true.

(** The keys the loops [for key, _ in enumerate(letters)] run over. *)
Definition key_positions (letters : list symbol) : list nat :=
  map fst (enumerate letters).

(** The valuation that places the letters as the array [arr] says and gives
    every linearization variable the conjunction of its two assignment
    variables. *)
Definition placed (arr : list symbol) (s : symbol) (k : nat) : bool :=
  match nth_error arr k with
  | Some s' => symbol_eqb s s'
  | None => false
  end.

Definition layout_valuation (arr : list symbol) : valuation :=
  fun x =>
    match x with
    | AVar s k => placed arr s k
    | LVar s1 s2 k1 k2 => placed arr s1 k1 && placed arr s2 k2
    end.

(** A solver that only checks one candidate valuation. *)
Definition checking_solver (v : valuation) : solver :=
  fun m => if feasible m v then (OPTIMAL, v) else (INFEASIBLE, v).

(** A solver that answers [st] and [v] whatever the model is. *)
Definition constant_solver (st : status) (v : valuation) : solver :=
  fun _ => (st, v).

(** ** Small instances *)

(** Three letters, a penalty matrix whose entry [0][1] is the only cheap one,
    and the corpus [ABABAB]. *)
Definition toy_letters : list symbol := ["A"; "B"; "C"]%string.

Definition toy_penalty : list (list Z) :=
  [[9; 1; 9]; [9; 9; 9]; [9; 9; 9]]%Z.

Definition toy_text : string := "ABABAB"%string.

Definition toy_model : model :=
  match build_model toy_penalty toy_letters toy_text with
  | Return m => m
  | Raise _ => Model [] [] [] []
  end.

(** The model of the small instance for the empty corpus. *)
Definition toy_model_empty_corpus : model :=
  match build_model toy_penalty toy_letters EmptyString with
  | Return m => m
  | Raise _ => Model [] [] [] []
  end.

(** Two letters, a penalty matrix with different costs for the two
    directions, and the corpus [BA]. *)
Definition two_letters : list symbol := ["A"; "B"]%string.

Definition two_penalty : list (list Z) := [[0; 5]; [7; 0]]%Z.

Definition two_model : model :=
  match build_model two_penalty two_letters "BA"%string with
  | Return m => m
  | Raise _ => Model [] [] [] []
  end.

(** ** Definitions for the further properties *)

Definition literal_var (l : literal) : var :=
  match l with
  | Pos x => x
  | Neg x => x
  end.

(** The variables a constraint reads from the dictionary [variables]. *)
Definition constraint_vars (c : constraint) : list var :=
  match c with
  | SumEq xs _ => xs
  | SumLe xs _ => xs
  | BoolAnd lits enf => literal_var enf :: map literal_var lits
  | BoolOr lits enf => literal_var enf :: map literal_var lits
  end.

(** Every variable looked up in lines 39-61, for a constraint or for the
    objective. *)
Definition used_vars (m : model) : list var :=
  (flat_map constraint_vars (constraints m) ++ obj_expr m)%list.

(** *** The printing loop of the script (lines 140-143)

    The text written to the standard output by the loop over [result]. *)
Definition newline : string := String (ascii_of_nat 10) EmptyString.

(** [str(l)] for a slot of the array. *)
Definition str_of_slot (l : option symbol) : string :=
  match l with
  | Some s => s
  | None => "None"%string
  end.

(** The pieces written one after the other. *)
Fixpoint join (pieces : list string) : string :=
  match pieces with
  | [] => EmptyString
  | p :: t => (p ++ join t)%string
  end.

(** Lines 141-143 for one [(i, l)]: [print(l, end=' ')], then [print("")]
    when [i % 10 == 9]. *)
Definition print_item (il : nat * option symbol) : string :=
  (str_of_slot (snd il) ++ " "
   ++ (if Nat.eqb (fst il mod 10) 9 then newline else EmptyString))%string.

(** Lines 140-143. *)
Definition print_layout (result : list (option symbol)) : string :=
  join (map print_item (enumerate result)).

(** One printed row without its end of line: every entry followed by a
    space. *)
Definition row_text (row : list (option symbol)) : string :=
  join (map (fun l => (str_of_slot l ++ " ")%string) row).

(** *** All the rearrangements of a list, for the search by enumeration *)

Fixpoint insert_everywhere {A : Type} (a : A) (l : list A) : list (list A) :=
  match l with
  | [] => [[a]]
  | x :: t => (a :: l) :: map (cons x) (insert_everywhere a t)
  end.

Fixpoint all_layouts {A : Type} (l : list A) : list (list A) :=
  match l with
  | [] => [[]]
  | a :: t => flat_map (insert_everywhere a) (all_layouts t)
  end.

(** *** Instances for the scaling of the frequencies *)

(** The integers that fit the 64-bit coefficients of the solver. *)
Definition int64 (z : Z) : Prop := (- 2 ^ 63 <= z < 2 ^ 63)%Z.

(** The small instance with every frequency doubled. *)
Definition toy_model_doubled : model :=
  match build_model_with (scaled 2 (frequency toy_text)) toy_penalty toy_letters with
  | Return m => m
  | Raise _ => Model [] [] [] []
  end.

(** The entries of [penalty_2gram] for the keys Q and W, lines 96-97:
    0.476, 0.581, 0.653 and 0.429, written in binary64. *)
Definition penalty_QW : list (list float) :=
  [[0x1.e76c8b4395810p-2; 0x1.2978d4fdf3b64p-1];
   [0x1.4e5604189374cp-1; 0x1.b74bc6a7ef9dbp-2]]%float.

(** A corpus in which A is followed by B seven times and B by A six times. *)
Definition corpus_AB7 : string := "ABABABABABABAB"%string.

(** Two more entries of [penalty_2gram] above the diagonal: 0.036 (from U
    to I, line 102) and 0.054 (from H to K, line 111). *)
Definition penalty_UI : float := 0x1.26e978d4fdf3bp-5%float.

Definition penalty_HK : float := 0x1.ba5e353f7ced9p-5%float.
(** ** Facts about the enumerations *)

Section Enumerations.
Context {A : Type}.

Lemma in_combine_seq (l : list A) (s i : nat) (x : A) :
  In (i, x) (combine (seq s (length l)) l) <->
  s <= i /\ nth_error l (i - s) = Some x.
Proof.
  revert s; induction l as [|a l IH]; intros s; simpl.
  - split; [tauto|]. intros [_ H]. destruct (i - s); discriminate.
  - rewrite IH. split.
    + intros [H | [Hle H]].
      * injection H as <- <-. rewrite Nat.sub_diag. split; [lia | reflexivity].
      * split; [lia|]. replace (i - s) with (S (i - S s)) by lia. exact H.
    + intros [Hle H]. destruct (Nat.eq_dec s i) as [<- | Hne].
      * rewrite Nat.sub_diag in H. simpl in H. left. congruence.
      * right. split; [lia|].
        replace (i - s) with (S (i - S s)) in H by lia. exact H.
Qed.

Lemma in_enumerate (l : list A) (i : nat) (x : A) :
  In (i, x) (enumerate l) <-> nth_error l i = Some x.
Proof.
  unfold enumerate. rewrite in_combine_seq, Nat.sub_0_r.
  split; [tauto | intros H; split; [lia | exact H]].
Qed.

Lemma enumerate_keys (l : list A) : map fst (enumerate l) = range (length l).
Proof.
  unfold enumerate, range. generalize 0.
  induction l as [|a l IH]; intros s; simpl; [reflexivity|].
  now rewrite IH.
Qed.

Lemma enumerate_values (l : list A) : map snd (enumerate l) = l.
Proof.
  unfold enumerate. generalize 0.
  induction l as [|a l IH]; intros s; simpl; [reflexivity|].
  now rewrite IH.
Qed.

Lemma in_permutations2 (pool : list A) (a b : A) :
  In (a, b) (permutations2 pool) <->
  exists i j, i <> j /\ nth_error pool i = Some a /\ nth_error pool j = Some b.
Proof.
  unfold permutations2. rewrite in_flat_map. split.
  - intros [[i x] [Hi H]]. rewrite in_flat_map in H.
    destruct H as [[j y] [Hj H]]. simpl in H.
    destruct (Nat.eqb_spec i j) as [|Hne]; [contradiction|].
    destruct H as [H|[]]. injection H as <- <-.
    exists i, j. rewrite in_enumerate in Hi, Hj. auto.
  - intros (i & j & Hne & Hi & Hj). exists (i, a). split.
    + now apply in_enumerate.
    + rewrite in_flat_map. exists (j, b). split.
      * now apply in_enumerate.
      * simpl. destruct (Nat.eqb_spec i j); [contradiction | now left].
Qed.

Lemma in_combinations2 (pool : list A) (a b : A) :
  In (a, b) (combinations2 pool) <->
  exists i j, i < j /\ nth_error pool i = Some a /\ nth_error pool j = Some b.
Proof.
  unfold combinations2. rewrite in_flat_map. split.
  - intros [[i x] [Hi H]]. rewrite in_flat_map in H.
    destruct H as [[j y] [Hj H]]. simpl in H.
    destruct (Nat.ltb_spec i j) as [Hlt|]; [|contradiction].
    destruct H as [H|[]]. injection H as <- <-.
    exists i, j. rewrite in_enumerate in Hi, Hj. auto.
  - intros (i & j & Hlt & Hi & Hj). exists (i, a). split.
    + now apply in_enumerate.
    + rewrite in_flat_map. exists (j, b). split.
      * now apply in_enumerate.
      * simpl. destruct (Nat.ltb_spec i j); [now left | lia].
Qed.
End Enumerations.

Lemma nth_error_range (n i : nat) :
  nth_error (range n) i = if Nat.ltb i n then Some i else None.
Proof.
  unfold range. destruct (Nat.ltb_spec i n) as [H|H].
  - rewrite nth_error_nth' with (d := 0) by now rewrite length_seq.
    now rewrite seq_nth.
  - apply nth_error_None. now rewrite length_seq.
Qed.

Lemma in_key_pairs (n k1 k2 : nat) :
  In (k1, k2) (combinations2 (range n)) <-> k1 < k2 /\ k2 < n.
Proof.
  rewrite in_combinations2. split.
  - intros (i & j & Hlt & Hi & Hj). rewrite nth_error_range in Hi, Hj.
    destruct (Nat.ltb_spec i n); [|discriminate].
    destruct (Nat.ltb_spec j n); [|discriminate].
    injection Hi as <-. injection Hj as <-. lia.
  - intros [H1 H2]. exists k1, k2. rewrite !nth_error_range.
    destruct (Nat.ltb_spec k1 n); [|lia].
    destruct (Nat.ltb_spec k2 n); [|lia]. auto.
Qed.

(** ** What the constraints say *)

Lemma bind_Return {A B : Type} (c : M A) (k : A -> M B) (b : B) :
  bind c k = Return b <-> exists a, c = Return a /\ k a = Return b.
Proof.
  destruct c as [e|a]; simpl; split.
  - discriminate.
  - intros (a & H & _). discriminate.
  - intros H. now exists a.
  - intros (a' & H & Hk). now injection H as <-.
Qed.

Lemma build_model_with_Return freq penalty2 letters m :
  build_model_with freq penalty2 letters = Return m <->
  exists terms,
    objective_terms freq penalty2 letters = Return terms /\
    m = {| variables := assignment_vars letters ++ link_vars letters;
           constraints := model_constraints letters;
           obj_expr := map fst terms;
           obj_coef := map snd terms |}.
Proof.
  unfold build_model_with. rewrite bind_Return.
  split; intros (terms & H1 & H2); exists terms; split; congruence.
Qed.

Lemma build_model_constraints freq penalty2 letters m :
  build_model_with freq penalty2 letters = Return m ->
  constraints m = model_constraints letters.
Proof.
  rewrite build_model_with_Return. now intros (terms & _ & ->).
Qed.

(** The sum of the exactly-one constraint of [letter] runs over the keys
    [0 .. N-1]. *)
Lemma letter_row (letters : list symbol) (letter : symbol) :
  map (fun kx : nat * symbol => AVar letter (fst kx)) (enumerate letters)
  = map (AVar letter) (range (length letters)).
Proof.
  now rewrite <- enumerate_keys, map_map.
Qed.

Lemma link_pair_holds (v : valuation) (l1 l2 : symbol) (k1 k2 : nat) :
  holds v (BoolAnd [Pos (AVar l1 k1); Pos (AVar l2 k2)] (Pos (LVar l1 l2 k1 k2)))
  && holds v (BoolOr [Neg (AVar l1 k1); Neg (AVar l2 k2)] (Neg (LVar l1 l2 k1 k2)))
  = true
  <-> v (LVar l1 l2 k1 k2) = v (AVar l1 k1) && v (AVar l2 k2).
Proof.
  simpl.
  destruct (v (LVar l1 l2 k1 k2)), (v (AVar l1 k1)), (v (AVar l2 k2));
    simpl; split; intros H; try reflexivity; discriminate.
Qed.

Lemma model_constraints_spec (letters : list symbol) (v : valuation) :
  forallb (holds v) (model_constraints letters) = true <-> assignment_ok letters v.
Proof.
  unfold model_constraints. rewrite !forallb_app, !andb_true_iff, !forallb_forall.
  split.
  - intros (Hl & Hk & Hlink). split.
    + intros s Hs.
      specialize (Hl (SumEq (map (AVar s) (range (length letters))) 1)).
      simpl in Hl. apply Z.eqb_eq, Hl.
      unfold letter_constraints. apply in_map_iff. exists s.
      now rewrite letter_row.
    + intros k Hk'.
      destruct (nth_error letters k) as [x|] eqn:Hx;
        [|apply nth_error_None in Hx; lia].
      specialize (Hk (SumLe (map (fun s => AVar s k) letters) 1)).
      simpl in Hk. apply Z.leb_le, Hk.
      unfold key_constraints. apply in_map_iff. exists (k, x). split; [reflexivity|].
      now apply in_enumerate.
    + intros l1 l2 k1 k2 Hll Hlt Hn. apply link_pair_holds.
      assert (Hkk : In (k1, k2) (combinations2 (range (length letters))))
        by now apply in_key_pairs.
      apply andb_true_iff; split; apply Hlink; unfold link_constraints;
        apply in_flat_map; exists (l1, l2); (split; [exact Hll|]);
        apply in_flat_map; exists (k1, k2); (split; [exact Hkk|]); simpl; auto.
  - intros [Hl Hk Hlink]. repeat split.
    + intros c Hc. unfold letter_constraints in Hc.
      apply in_map_iff in Hc. destruct Hc as (s & <- & Hs).
      simpl. rewrite letter_row. apply Z.eqb_eq. now apply Hl.
    + intros c Hc. unfold key_constraints in Hc.
      apply in_map_iff in Hc. destruct Hc as ([k x] & <- & Hkx).
      simpl. apply Z.leb_le, Hk. apply in_enumerate in Hkx.
      apply nth_error_Some. congruence.
    + intros c Hc. unfold link_constraints in Hc.
      apply in_flat_map in Hc. destruct Hc as ([l1 l2] & Hll & Hc).
      apply in_flat_map in Hc. destruct Hc as ([k1 k2] & Hkk & Hc).
      apply in_key_pairs in Hkk. destruct Hkk as [Hlt Hn].
      pose proof (proj2 (link_pair_holds v l1 l2 k1 k2)
                        (Hlink l1 l2 k1 k2 Hll Hlt Hn)) as H.
      apply andb_true_iff in H. destruct H as [Ha Ho].
      destruct Hc as [<- | [<- | []]]; assumption.
Qed.

Lemma feasible_spec freq penalty2 letters m v :
  build_model_with freq penalty2 letters = Return m ->
  feasible m v = true <-> assignment_ok letters v.
Proof.
  intros Hm. unfold feasible. rewrite (build_model_constraints _ _ _ _ Hm).
  apply model_constraints_spec.
Qed.

(** ** The objective terms *)

Lemma mapM_Return_map {A B : Type} (f : A -> M B) (g : A -> B) (l : list A)
    (ys : list B) :
  (forall x y, In x l -> f x = Return y -> y = g x) ->
  mapM f l = Return ys -> ys = map g l.
Proof.
  revert ys. induction l as [|x l IH]; intros ys Hg H; simpl in H.
  - now injection H as <-.
  - apply bind_Return in H. destruct H as (y & Hy & H).
    apply bind_Return in H. destruct H as (ys' & Hys & H).
    injection H as <-. simpl. f_equal.
    + apply Hg; [now left | exact Hy].
    + apply IH; [|exact Hys]. intros x' y' Hx'. apply Hg. now right.
Qed.

Lemma mapM_total {A B : Type} (f : A -> M B) (g : A -> B) (l : list A) :
  (forall x, In x l -> f x = Return (g x)) -> mapM f l = Return (map g l).
Proof.
  induction l as [|x l IH]; intros H; simpl; [reflexivity|].
  rewrite (H x (or_introl eq_refl)). simpl.
  rewrite IH; [reflexivity|]. intros x' Hx'. apply H. now right.
Qed.

Lemma getitem_Return {A : Type} (l : list A) (i : nat) (x d : A) :
  getitem l i = Return x -> i < length l /\ x = nth i l d.
Proof.
  unfold getitem. destruct (nth_error l i) as [y|] eqn:Hy; [|discriminate].
  intros H. injection H as <-. split.
  - apply nth_error_Some. congruence.
  - symmetry. now apply nth_error_nth.
Qed.

Lemma getitem_total {A : Type} (l : list A) (i : nat) (d : A) :
  i < length l -> getitem l i = Return (nth i l d).
Proof.
  intros H. unfold getitem. now rewrite (nth_error_nth' l d H).
Qed.

Lemma penalty_at_Return (penalty2 : list (list Z)) (k1 k2 : nat) (z : Z) :
  penalty_at penalty2 k1 k2 = Return z -> z = penalty_nth penalty2 k1 k2.
Proof.
  unfold penalty_at, penalty_nth. intros H.
  apply bind_Return in H. destruct H as (row & Hrow & H).
  apply (getitem_Return _ _ _ []) in Hrow. destruct Hrow as [_ ->].
  now apply (getitem_Return _ _ _ 0%Z) in H.
Qed.

Lemma penalty_at_total (n : nat) (penalty2 : list (list Z)) (k1 k2 : nat) :
  square n penalty2 -> k1 < n -> k2 < n ->
  penalty_at penalty2 k1 k2 = Return (penalty_nth penalty2 k1 k2).
Proof.
  intros [Hlen Hrows] H1 H2. unfold penalty_at, penalty_nth.
  rewrite (getitem_total penalty2 k1 []) by lia. simpl.
  apply getitem_total.
  rewrite Forall_forall in Hrows. rewrite (Hrows (nth k1 penalty2 [])); [exact H2|].
  apply nth_In. lia.
Qed.

(** When the objective is composed without an [IndexError], its terms are
    the expected ones. *)
Lemma objective_terms_Return freq penalty2 letters terms :
  objective_terms freq penalty2 letters = Return terms ->
  terms = objective_terms_of freq penalty2 letters.
Proof.
  unfold objective_terms, objective_terms_of. intros H.
  apply bind_Return in H. destruct H as (tss & Htss & H). injection H as <-.
  rewrite flat_map_concat_map. f_equal.
  revert Htss. apply mapM_Return_map.
  intros [l1 l2] ts _. apply mapM_Return_map.
  intros [k1 k2] t _ Ht. apply bind_Return in Ht.
  destruct Ht as (z & Hz & Ht). injection Ht as <-.
  simpl. now rewrite (penalty_at_Return _ _ _ _ Hz).
Qed.

(** With an [N] by [N] penalty matrix no subscript fails. *)
Lemma objective_terms_total freq penalty2 letters :
  square (length letters) penalty2 ->
  objective_terms freq penalty2 letters
  = Return (objective_terms_of freq penalty2 letters).
Proof.
  intros Hsq. unfold objective_terms, objective_terms_of.
  rewrite flat_map_concat_map.
  rewrite mapM_total with
    (g := fun ll : symbol * symbol =>
            map (fun kk : nat * nat =>
                   (LVar (fst ll) (snd ll) (fst kk) (snd kk),
                    (freq (fst ll) (snd ll)
                     * penalty_nth penalty2 (fst kk) (snd kk))%Z))
                (combinations2 (range (length letters)))).
  - reflexivity.
  - intros [l1 l2] _. apply mapM_total. intros [k1 k2] Hkk.
    apply in_key_pairs in Hkk.
    rewrite (penalty_at_total (length letters) penalty2 k1 k2 Hsq) by lia. reflexivity.
Qed.

Lemma build_model_with_total freq penalty2 letters :
  square (length letters) penalty2 ->
  exists m, build_model_with freq penalty2 letters = Return m.
Proof.
  intros Hsq. unfold build_model_with.
  rewrite (objective_terms_total freq penalty2 letters Hsq). simpl. eauto.
Qed.

Lemma mapM_Return_in {A B : Type} (f : A -> M B) (l : list A) (ys : list B) :
  mapM f l = Return ys -> forall x, In x l -> exists y, f x = Return y.
Proof.
  revert ys. induction l as [|a l IH]; intros ys H x Hx; [destruct Hx|].
  simpl in H. apply bind_Return in H. destruct H as (y & Hy & H).
  apply bind_Return in H. destruct H as (ys' & Hys & _).
  destruct Hx as [<- | Hx]; [now exists y | exact (IH ys' Hys x Hx)].
Qed.

(** Whether the objective can be composed depends on the penalty matrix and
    on the number of letters only, not on the frequencies. *)
Lemma objective_terms_any_freq freq freq' penalty2 letters terms :
  objective_terms freq penalty2 letters = Return terms ->
  objective_terms freq' penalty2 letters
  = Return (objective_terms_of freq' penalty2 letters).
Proof.
  unfold objective_terms, objective_terms_of. intros H.
  apply bind_Return in H. destruct H as (tss & Htss & _).
  pose proof (mapM_Return_in _ _ _ Htss) as Hall.
  rewrite flat_map_concat_map.
  rewrite mapM_total with
    (g := fun ll : symbol * symbol =>
            map (fun kk : nat * nat =>
                   (LVar (fst ll) (snd ll) (fst kk) (snd kk),
                    (freq' (fst ll) (snd ll)
                     * penalty_nth penalty2 (fst kk) (snd kk))%Z))
                (combinations2 (range (length letters)))).
  - reflexivity.
  - intros [l1 l2] Hll. destruct (Hall (l1, l2) Hll) as (ts & Hts).
    simpl in Hts. pose proof (mapM_Return_in _ _ _ Hts) as Hkk.
    apply mapM_total. intros [k1 k2] Hin.
    destruct (Hkk (k1, k2) Hin) as (t & Ht). simpl in Ht.
    apply bind_Return in Ht. destruct Ht as (z & Hz & _).
    rewrite Hz. simpl. now rewrite (penalty_at_Return _ _ _ _ Hz).
Qed.

Lemma objective_terms_scaled (c : Z) freq penalty2 letters :
  objective_terms_of (scaled c freq) penalty2 letters
  = map (fun t : var * Z => (fst t, (c * snd t)%Z))
        (objective_terms_of freq penalty2 letters).
Proof.
  unfold objective_terms_of. induction (permutations2 letters) as [|ll L IH]; simpl.
  - reflexivity.
  - rewrite map_app, IH. f_equal. rewrite map_map. apply map_ext.
    intros kk. simpl. unfold scaled. f_equal. ring.
Qed.

Lemma combine_fst_snd {A B : Type} (l : list (A * B)) :
  combine (map fst l) (map snd l) = l.
Proof.
  induction l as [|[a b] l IH]; simpl; [reflexivity | now rewrite IH].
Qed.

Lemma WeightedSum_terms (v : valuation) (terms : list (var * Z)) :
  WeightedSum v (map fst terms) (map snd terms)
  = sumZ (map (fun t : var * Z => (snd t * Value v (fst t))%Z) terms).
Proof.
  unfold WeightedSum. now rewrite combine_fst_snd.
Qed.

(** The objective of a built model in closed form. *)
Lemma objective_value_built freq penalty2 letters m v :
  build_model_with freq penalty2 letters = Return m ->
  objective_value m v
  = sumZ (map (fun t : var * Z => (snd t * Value v (fst t))%Z)
              (objective_terms_of freq penalty2 letters)).
Proof.
  intros Hm. apply build_model_with_Return in Hm.
  destruct Hm as (terms & Ht & ->). unfold objective_value. simpl.
  rewrite WeightedSum_terms. now rewrite (objective_terms_Return _ _ _ _ Ht).
Qed.

(** ** Sums of boolean variables *)

Lemma sumZ_app (l1 l2 : list Z) : sumZ (l1 ++ l2) = (sumZ l1 + sumZ l2)%Z.
Proof.
  induction l1 as [|x l1 IH]; simpl; [reflexivity | rewrite IH; lia].
Qed.

Lemma sumZ_map_add {A : Type} (g h : A -> Z) (l : list A) :
  sumZ (map (fun a => (g a + h a)%Z) l) = (sumZ (map g l) + sumZ (map h l))%Z.
Proof.
  induction l as [|a l IH]; simpl; [reflexivity | rewrite IH; lia].
Qed.

Lemma sumZ_map_scale {A : Type} (c : Z) (g : A -> Z) (l : list A) :
  sumZ (map (fun a => (c * g a)%Z) l) = (c * sumZ (map g l))%Z.
Proof.
  induction l as [|a l IH]; simpl; [ring | rewrite IH; ring].
Qed.

Lemma sumZ_map_const {A : Type} (c : Z) (l : list A) :
  sumZ (map (fun _ => c) l) = (c * Z.of_nat (length l))%Z.
Proof.
  induction l as [|a l IH]; [simpl; lia|].
  cbn [map sumZ length]. rewrite IH. lia.
Qed.

(** Double counting: a sum over rows of row sums is the sum over columns of
    column sums. *)
Lemma sumZ_exchange {A B : Type} (g : A -> B -> Z) (la : list A) (lb : list B) :
  sumZ (map (fun a => sumZ (map (g a) lb)) la)
  = sumZ (map (fun b => sumZ (map (fun a => g a b) la)) lb).
Proof.
  induction la as [|a la IH]; simpl.
  - induction lb as [|b lb IHb]; simpl; [reflexivity | now rewrite <- IHb].
  - rewrite IH. now rewrite <- sumZ_map_add.
Qed.

Lemma sumZ_le_length {A : Type} (g : A -> Z) (l : list A) :
  (forall a, In a l -> (g a <= 1)%Z) ->
  (sumZ (map g l) <= Z.of_nat (length l))%Z.
Proof.
  induction l as [|a l IH]; intros H; [simpl; lia|].
  cbn [map sumZ length].
  specialize (H a (or_introl eq_refl)) as Ha.
  specialize (IH (fun b Hb => H b (or_intror Hb))). lia.
Qed.

(** Terms bounded by one that add up to their number are all equal to one. *)
Lemma sumZ_tight {A : Type} (g : A -> Z) (l : list A) :
  (forall a, In a l -> (g a <= 1)%Z) ->
  sumZ (map g l) = Z.of_nat (length l) ->
  forall a, In a l -> g a = 1%Z.
Proof.
  induction l as [|b l IH]; intros H Hsum a Ha; [destruct Ha|].
  cbn [map sumZ length] in Hsum.
  pose proof (H b (or_introl eq_refl)) as Hb.
  pose proof (sumZ_le_length g l (fun c Hc => H c (or_intror Hc))) as Hl.
  destruct Ha as [<- | Ha]; [lia|].
  apply IH; [intros c Hc; apply H; now right | lia | exact Ha].
Qed.

Section BoolSums.
Context {A : Type} (f : A -> bool).

Lemma countZ_cons (a : A) (l : list A) :
  countZ f (a :: l) = (Z.b2z (f a) + countZ f l)%Z.
Proof. reflexivity. Qed.

Lemma countZ_nonneg (l : list A) : (0 <= countZ f l)%Z.
Proof.
  induction l as [|a l IH]; [now unfold countZ|].
  rewrite countZ_cons. destruct (f a); cbn [Z.b2z]; lia.
Qed.

Lemma countZ_in (l : list A) (a : A) :
  In a l -> f a = true -> (1 <= countZ f l)%Z.
Proof.
  induction l as [|b l IH]; intros Hin Hf; [destruct Hin|].
  rewrite countZ_cons. pose proof (countZ_nonneg l).
  destruct Hin as [-> | Hin].
  - rewrite Hf. cbn [Z.b2z]. lia.
  - specialize (IH Hin Hf). destruct (f b); cbn [Z.b2z]; lia.
Qed.

Lemma countZ_two (l : list A) (a b : A) :
  In a l -> In b l -> a <> b -> f a = true -> f b = true ->
  (2 <= countZ f l)%Z.
Proof.
  induction l as [|c l IH]; intros Ha Hb Hne Hfa Hfb; [destruct Ha|].
  rewrite countZ_cons. destruct Ha as [-> | Ha], Hb as [-> | Hb].
  - contradiction.
  - rewrite Hfa. pose proof (countZ_in l b Hb Hfb). cbn [Z.b2z]. lia.
  - rewrite Hfb. pose proof (countZ_in l a Ha Hfa). cbn [Z.b2z]. lia.
  - specialize (IH Ha Hb Hne Hfa Hfb). destruct (f c); cbn [Z.b2z]; lia.
Qed.

Lemma countZ_exists (l : list A) :
  (1 <= countZ f l)%Z -> exists a, In a l /\ f a = true.
Proof.
  induction l as [|b l IH]; [unfold countZ; simpl; lia|].
  rewrite countZ_cons. intros H. destruct (f b) eqn:Hb.
  - exists b. split; [now left | exact Hb].
  - cbn [Z.b2z] in H. destruct IH as (a & Ha & Hfa); [lia|].
    exists a. split; [now right | exact Hfa].
Qed.

Lemma countZ_zero (l : list A) :
  (forall a, In a l -> f a = false) -> countZ f l = 0%Z.
Proof.
  induction l as [|b l IH]; intros H; [reflexivity|].
  rewrite countZ_cons, (H b (or_introl eq_refl)), IH; [reflexivity|].
  intros a Ha. apply H. now right.
Qed.
End BoolSums.

Lemma Sum_map {A : Type} (v : valuation) (g : A -> var) (l : list A) :
  Sum v (map g l) = countZ (fun a => v (g a)) l.
Proof.
  unfold Sum, Value, countZ. now rewrite map_map.
Qed.

(** ** [str.count] on a bigram *)

Lemma prefix_bigram (c1 c2 a : ascii) (s : string) :
  prefix (bigram c1 c2) (String a s) = true <->
  a = c1 /\ exists s', s = String c2 s'.
Proof.
  unfold bigram. destruct s as [|b s']; simpl.
  - destruct (ascii_dec c1 a);
      (split; [discriminate | intros [_ [s' H]]; discriminate]).
  - destruct (ascii_dec c1 a) as [<- | Hne].
    + destruct (ascii_dec c2 b) as [<- | Hne2].
      * destruct s'; (split; [intros _; split; [reflexivity | eauto] | reflexivity]).
      * split; [discriminate | intros [_ [s'' H]]; congruence].
    + split; [discriminate | intros [H _]; congruence].
Qed.

(** Two occurrences of a bigram of two different characters cannot overlap:
    the scan that skips behind every match misses none. *)
Lemma count_scan_bigram (c1 c2 : ascii) (s : string) :
  c1 <> c2 ->
  count_scan (bigram c1 c2) s 0 = occurrences (bigram c1 c2) s.
Proof.
  intros Hne. induction s as [|a s IH]; [reflexivity|].
  cbn [count_scan occurrences].
  destruct (prefix (bigram c1 c2) (String a s)) eqn:Hp.
  - apply prefix_bigram in Hp. destruct Hp as [-> [s' ->]].
    change (String.length (bigram c1 c2) - 1) with 1.
    cbn [count_scan]. cbn [count_scan occurrences] in IH.
    assert (Hno : prefix (bigram c1 c2) (String c2 s') = false).
    { destruct (prefix (bigram c1 c2) (String c2 s')) eqn:Hq; [|reflexivity].
      apply prefix_bigram in Hq. destruct Hq as [Hq _]. congruence. }
    rewrite Hno in IH. simpl in IH. rewrite IH.
    cbn [occurrences]. rewrite Hno. reflexivity.
  - simpl. exact IH.
Qed.

(** With a repeated character the two counts differ: [str.count] skips the
    occurrences that overlap a counted one. *)
Lemma count_skips_overlaps :
  count "AAAA" "AA" = 2 /\ occurrences "AA" "AAAA" = 3.
Proof.
  split; reflexivity.
Qed.

(** ** The empty corpus *)

Lemma count_empty_corpus (sub : string) :
  sub <> EmptyString -> count EmptyString sub = 0.
Proof.
  destruct sub; [congruence | reflexivity].
Qed.

Lemma frequency_empty_corpus (l1 l2 : symbol) :
  l1 <> l2 -> frequency EmptyString l1 l2 = 0%Z.
Proof.
  intros Hne. unfold frequency. rewrite count_empty_corpus; [reflexivity|].
  destruct l1 as [|a l1]; simpl; [|discriminate].
  destruct l2; [congruence | discriminate].
Qed.

Lemma permutations2_distinct (letters : list symbol) (l1 l2 : symbol) :
  NoDup letters -> In (l1, l2) (permutations2 letters) -> l1 <> l2.
Proof.
  intros Hnd Hin <-. apply in_permutations2 in Hin.
  destruct Hin as (i & j & Hne & Hi & Hj). apply Hne.
  apply (proj1 (NoDup_nth_error letters) Hnd).
  - apply nth_error_Some. congruence.
  - congruence.
Qed.

Lemma empty_corpus_terms (penalty2 : list (list Z)) (letters : list symbol)
    (t : var * Z) :
  NoDup letters ->
  In t (objective_terms_of (frequency EmptyString) penalty2 letters) ->
  snd t = 0%Z.
Proof.
  intros Hnd Ht. unfold objective_terms_of in Ht.
  apply in_flat_map in Ht. destruct Ht as ([l1 l2] & Hll & Ht).
  apply in_map_iff in Ht. destruct Ht as (kk & <- & _). simpl.
  rewrite frequency_empty_corpus; [reflexivity|].
  exact (permutations2_distinct letters l1 l2 Hnd Hll).
Qed.

(** ** The assignment part of a feasible valuation is a bijection *)

Lemma in_range (n k : nat) : In k (range n) <-> k < n.
Proof.
  unfold range. rewrite in_seq. lia.
Qed.

Lemma length_range (n : nat) : length (range n) = n.
Proof.
  apply length_seq.
Qed.

Section Bijection.
Variable letters : list symbol.
Variable v : valuation.
Hypothesis Hok : assignment_ok letters v.

(** Counting the true assignment variables by letters gives [N]; counting
    them by keys gives at most one per key: every key carries a letter. *)
Lemma key_sum_one (k : nat) :
  k < length letters -> Sum v (map (fun s => AVar s k) letters) = 1%Z.
Proof.
  intros Hk.
  pose (g := fun (s : symbol) (k : nat) => Value v (AVar s k)).
  assert (Hrows : sumZ (map (fun s => sumZ (map (g s) (range (length letters)))) letters)
                  = Z.of_nat (length letters)).
  { rewrite map_ext_in with (g := fun _ => 1%Z).
    - rewrite sumZ_map_const. lia.
    - intros s Hs. pose proof (exactly_one_key _ _ Hok s Hs) as H.
      unfold Sum in H. now rewrite map_map in H. }
  rewrite sumZ_exchange in Hrows.
  assert (Hcol : forall k, In k (range (length letters)) ->
                   (sumZ (map (fun s => g s k) letters) <= 1)%Z).
  { intros k' Hk'. apply in_range in Hk'.
    pose proof (at_most_one_letter _ _ Hok k' Hk') as H.
    unfold Sum in H. now rewrite map_map in H. }
  pose proof (sumZ_tight (fun k => sumZ (map (fun s => g s k) letters))
                (range (length letters)) Hcol) as Htight.
  rewrite length_range in Htight.
  specialize (Htight Hrows k (proj2 (in_range (length letters) k) Hk)).
  unfold Sum. now rewrite map_map.
Qed.

Lemma letter_has_key (s : symbol) :
  In s letters -> exists k, k < length letters /\ v (AVar s k) = true.
Proof.
  intros Hs. pose proof (exactly_one_key _ _ Hok s Hs) as H.
  rewrite Sum_map in H.
  destruct (countZ_exists (fun k => v (AVar s k)) (range (length letters))) as (k & Hk & Hv);
    [lia|].
  exists k. split; [now apply in_range | exact Hv].
Qed.

Lemma letter_key_unique (s : symbol) (k k' : nat) :
  In s letters -> k < length letters -> k' < length letters ->
  v (AVar s k) = true -> v (AVar s k') = true -> k = k'.
Proof.
  intros Hs Hk Hk' Hv Hv'. destruct (Nat.eq_dec k k') as [|Hne]; [assumption|].
  pose proof (exactly_one_key _ _ Hok s Hs) as H. rewrite Sum_map in H.
  pose proof (countZ_two (fun k => v (AVar s k)) (range (length letters)) k k'
                (proj2 (in_range (length letters) k) Hk) (proj2 (in_range (length letters) k') Hk')
                Hne Hv Hv').
  lia.
Qed.

Lemma key_has_letter (k : nat) :
  k < length letters -> exists s, In s letters /\ v (AVar s k) = true.
Proof.
  intros Hk. pose proof (key_sum_one k Hk) as H. rewrite Sum_map in H.
  apply countZ_exists. lia.
Qed.

Lemma key_letter_unique (k : nat) (s s' : symbol) :
  In s letters -> In s' letters -> k < length letters ->
  v (AVar s k) = true -> v (AVar s' k) = true -> s = s'.
Proof.
  intros Hs Hs' Hk Hv Hv'.
  destruct (string_dec s s') as [|Hne]; [assumption|].
  pose proof (at_most_one_letter _ _ Hok k Hk) as H. rewrite Sum_map in H.
  pose proof (countZ_two (fun s => v (AVar s k)) letters s s' Hs Hs' Hne Hv Hv').
  lia.
Qed.

(** A letter listed twice would be counted twice on its key. *)
Lemma feasible_letters_NoDup : NoDup letters.
Proof.
  assert (Hkeys : forall s, In s letters -> exists k, k < length letters /\ v (AVar s k) = true)
    by exact letter_has_key.
  assert (Hcols : forall k, k < length letters ->
            (countZ (fun s => v (AVar s k)) letters <= 1)%Z).
  { intros k Hk. rewrite <- Sum_map. now apply (at_most_one_letter _ _ Hok). }
  clear Hok. revert Hkeys Hcols. generalize (length letters) as n.
  induction letters as [|a l IH]; intros n Hkeys Hcols; constructor.
  - intros Ha. destruct (Hkeys a (or_introl eq_refl)) as (k & Hk & Hv).
    specialize (Hcols k Hk). rewrite countZ_cons, Hv in Hcols.
    pose proof (countZ_in (fun s => v (AVar s k)) l a Ha Hv).
    cbn [Z.b2z] in Hcols. lia.
  - apply (IH n).
    + intros s Hs. apply Hkeys. now right.
    + intros k Hk. specialize (Hcols k Hk). rewrite countZ_cons in Hcols.
      destruct (v (AVar a k)); cbn [Z.b2z] in Hcols; lia.
Qed.
End Bijection.

(** ** The variables that are created *)

Lemma in_assignment_vars (letters : list symbol) (s : symbol) (k : nat) :
  In (AVar s k) (assignment_vars letters) <-> In s letters /\ k < length letters.
Proof.
  unfold assignment_vars. rewrite in_flat_map. split.
  - intros (l & Hl & H). apply in_map_iff in H. destruct H as ([k' x] & Heq & Hkx).
    injection Heq as <- <-. split; [exact Hl|].
    apply in_enumerate in Hkx. apply nth_error_Some. simpl. congruence.
  - intros [Hs Hk]. exists s. split; [exact Hs|].
    destruct (nth_error letters k) as [x|] eqn:Hx;
      [|apply nth_error_None in Hx; lia].
    apply in_map_iff. exists (k, x). split; [reflexivity | now apply in_enumerate].
Qed.

Lemma assignment_var_not_link (letters : list symbol) (s : symbol) (k : nat) :
  ~ In (AVar s k) (link_vars letters).
Proof.
  unfold link_vars. rewrite in_flat_map. intros (ll & _ & H).
  apply in_map_iff in H. destruct H as (kk & Heq & _). discriminate.
Qed.

(** ** The decoding loops *)

Lemma Value_test (v : valuation) (x : var) :
  Z.ltb 1 (2 * Value v x) = v x.
Proof.
  unfold Value. now destruct (v x).
Qed.

Lemma setitem_app {A : Type} (pre post : list A) (x y : A) :
  setitem (pre ++ x :: post) (length pre) y = Return (pre ++ y :: post).
Proof.
  induction pre as [|a pre IH]; simpl; [reflexivity | now rewrite IH].
Qed.

Lemma map_combine_same {A B C : Type} (h : A * B -> C) (g : A -> B) (l : list A) :
  map h (combine l (map g l)) = map (fun a => h (a, g a)) l.
Proof.
  induction l as [|a l IH]; simpl; [reflexivity | now rewrite IH].
Qed.

Section DecodeLoops.
Variable v : valuation.

Lemma inner_loop_from (letter : symbol) (post pre : list (option symbol)) :
  foldM (decode_step v letter) (seq (length pre) (length post)) (pre ++ post)
  = Return (pre ++ map (fun kx : nat * option symbol =>
                          if v (AVar letter (fst kx)) then Some letter else snd kx)
                       (combine (seq (length pre) (length post)) post)).
Proof.
  revert pre. induction post as [|x post IH]; intros pre; simpl.
  - reflexivity.
  - unfold decode_step at 1. rewrite Value_test.
    assert (Hnext : forall y : option symbol,
               foldM (decode_step v letter) (seq (S (length pre)) (length post))
                     (pre ++ y :: post)
               = Return (pre ++ y ::
                   map (fun kx : nat * option symbol =>
                          if v (AVar letter (fst kx)) then Some letter else snd kx)
                       (combine (seq (S (length pre)) (length post)) post))).
    { intros y. specialize (IH (pre ++ [y])).
      rewrite length_app, Nat.add_1_r, <- !app_assoc in IH. exact IH. }
    destruct (v (AVar letter (length pre))).
    + rewrite setitem_app. simpl. apply Hnext.
    + simpl. apply Hnext.
Qed.

Lemma inner_loop (letter : symbol) (n : nat) (g : nat -> option symbol) :
  foldM (decode_step v letter) (range n) (map g (range n))
  = Return (map (fun k => if v (AVar letter k) then Some letter else g k)
                (range n)).
Proof.
  pose proof (inner_loop_from letter (map g (range n)) []) as H.
  rewrite length_map, length_range in H. simpl in H.
  fold (range n) in H. rewrite H. f_equal. apply map_combine_same.
Qed.

Lemma outer_loop (n : nat) (ls : list symbol) (g : nat -> option symbol) :
  foldM (fun result letter => foldM (decode_step v letter) (range n) result)
        ls (map g (range n))
  = Return (map (fun k =>
                   fold_left (fun old letter =>
                                if v (AVar letter k) then Some letter else old)
                             ls (g k))
                (range n)).
Proof.
  revert g. induction ls as [|l ls IH]; intros g; simpl; [reflexivity|].
  rewrite inner_loop. simpl. apply IH.
Qed.

(** The decoder never raises, and slot [k] of its answer is [slot v letters k]. *)
Lemma decode_spec (letters : list symbol) :
  decode v letters = Return (map (slot v letters) (range (length letters))).
Proof.
  unfold decode.
  replace (repeat (@None symbol) (length letters))
    with (map (fun _ : nat => @None symbol) (range (length letters))).
  - apply outer_loop.
  - unfold range. generalize 0. induction (length letters) as [|n IH];
      intros s; simpl; [reflexivity | now rewrite IH].
Qed.
End DecodeLoops.

Lemma slot_fold_Some (v : valuation) (k : nat) (ls : list symbol)
    (acc : option symbol) (s : symbol) :
  fold_left (fun old letter => if v (AVar letter k) then Some letter else old) ls acc
  = Some s ->
  acc = Some s \/ (In s ls /\ v (AVar s k) = true).
Proof.
  revert acc. induction ls as [|l ls IH]; intros acc H; simpl in H; [now left|].
  apply IH in H. destruct H as [H | [H1 H2]].
  - destruct (v (AVar l k)) eqn:Hl.
    + injection H as <-. right. split; [now left | exact Hl].
    + now left.
  - right. split; [now right | exact H2].
Qed.

Lemma slot_fold_None (v : valuation) (k : nat) (ls : list symbol)
    (acc : option symbol) :
  fold_left (fun old letter => if v (AVar letter k) then Some letter else old) ls acc
  = None <->
  acc = None /\ forall s, In s ls -> v (AVar s k) = false.
Proof.
  revert acc. induction ls as [|l ls IH]; intros acc; simpl.
  - split; [intros H; split; [exact H | intros s []] | now intros [H _]].
  - rewrite IH. split.
    + intros [H Hls]. destruct (v (AVar l k)) eqn:Hl; [discriminate|].
      split; [exact H|]. intros s [<- | Hs]; [exact Hl | now apply Hls].
    + intros [-> H]. rewrite (H l (or_introl eq_refl)).
      split; [reflexivity|]. intros s Hs. apply H. now right.
Qed.

Lemma slot_Some (v : valuation) (letters : list symbol) (k : nat) (s : symbol) :
  slot v letters k = Some s -> In s letters /\ v (AVar s k) = true.
Proof.
  intros H. apply slot_fold_Some in H. destruct H as [H | H]; [discriminate | exact H].
Qed.

Lemma slot_None (v : valuation) (letters : list symbol) (k : nat) :
  slot v letters k = None <-> forall s, In s letters -> v (AVar s k) = false.
Proof.
  unfold slot. rewrite slot_fold_None. split; [now intros [_ H] | now split].
Qed.

(** ** The decoded array of a feasible valuation *)

Section DecodedLayout.
Variable letters : list symbol.
Variable v : valuation.
Hypothesis Hok : assignment_ok letters v.

Lemma slot_filled (k : nat) :
  k < length letters ->
  exists s, slot v letters k = Some s /\ In s letters /\ v (AVar s k) = true.
Proof.
  intros Hk. destruct (slot v letters k) as [s|] eqn:Hs.
  - exists s. split; [reflexivity | now apply slot_Some].
  - destruct (key_has_letter letters v Hok k Hk) as (s & Hin & Hv).
    rewrite slot_None in Hs. rewrite (Hs s Hin) in Hv. discriminate.
Qed.

Lemma slot_is_the_letter (k : nat) (s : symbol) :
  k < length letters -> In s letters ->
  (slot v letters k = Some s <-> v (AVar s k) = true).
Proof.
  intros Hk Hin. split.
  - intros H. now apply slot_Some in H.
  - intros Hv. destruct (slot_filled k Hk) as (s' & Hs' & Hin' & Hv').
    rewrite Hs'. f_equal.
    exact (key_letter_unique letters v Hok k s' s Hin' Hin Hk Hv' Hv).
Qed.

Lemma decoded_NoDup : NoDup (map (slot v letters) (range (length letters))).
Proof.
  apply Finite.Injective_map_NoDup_in; [|apply seq_NoDup].
  intros k k' Hk Hk' Heq. apply in_range in Hk, Hk'.
  destruct (slot_filled k Hk) as (s & Hs & Hin & Hv).
  rewrite Hs in Heq. symmetry in Heq. apply slot_Some in Heq.
  exact (letter_key_unique letters v Hok s k k' Hin Hk Hk' Hv (proj2 Heq)).
Qed.

Lemma decoded_Permutation :
  Permutation (map (slot v letters) (range (length letters))) (map Some letters).
Proof.
  apply NoDup_Permutation_bis.
  - exact decoded_NoDup.
  - rewrite !length_map, length_range. lia.
  - intros x Hx. apply in_map_iff in Hx. destruct Hx as (k & <- & Hk).
    apply in_range in Hk. destruct (slot_filled k Hk) as (s & -> & Hin & _).
    now apply in_map.
Qed.

Lemma decoded_count (s : symbol) :
  In s letters ->
  count_occ slot_eq_dec (map (slot v letters) (range (length letters))) (Some s) = 1.
Proof.
  intros Hin.
  rewrite (proj1 (Permutation_count_occ slot_eq_dec _ _) decoded_Permutation).
  apply NoDup_count_occ'; [|now apply in_map].
  apply Finite.Injective_map_NoDup_in.
  - intros x y _ _ H. now injection H.
  - exact (feasible_letters_NoDup letters v Hok).
Qed.
End DecodedLayout.

(** ** The valuation of a layout *)

Lemma symbol_eqb_eq (a b : symbol) : symbol_eqb a b = true <-> a = b.
Proof.
  apply String.eqb_eq.
Qed.

Lemma placed_true (arr : list symbol) (s : symbol) (k : nat) :
  placed arr s k = true <-> nth_error arr k = Some s.
Proof.
  unfold placed. destruct (nth_error arr k) as [x|].
  - rewrite symbol_eqb_eq. split; congruence.
  - split; discriminate.
Qed.

(** Counting the keys on which [s] is placed is counting the occurrences of
    [s] in the layout. *)
Lemma count_keys_of_letter (arr : list symbol) (s : symbol) :
  countZ (fun k => placed arr s k) (range (length arr))
  = countZ (symbol_eqb s) arr.
Proof.
  unfold range. induction arr as [|a arr IH]; [reflexivity|].
  cbn [length seq]. rewrite !countZ_cons, <- seq_shift, <- IH.
  f_equal. unfold countZ. now rewrite map_map.
Qed.

Lemma count_letter_NoDup (l : list symbol) (s : symbol) :
  NoDup l -> In s l -> countZ (symbol_eqb s) l = 1%Z.
Proof.
  induction 1 as [|a l Hnotin Hnd IH]; intros Hin; [destruct Hin|].
  rewrite countZ_cons. destruct (string_dec s a) as [-> | Hne].
  - unfold symbol_eqb at 1. rewrite String.eqb_refl.
    rewrite countZ_zero; [reflexivity|].
    intros x Hx. apply not_true_is_false. rewrite symbol_eqb_eq.
    intros <-. contradiction.
  - destruct Hin as [-> | Hin]; [contradiction|].
    rewrite (IH Hin).
    replace (symbol_eqb s a) with false; [reflexivity|].
    symmetry. apply not_true_is_false. now rewrite symbol_eqb_eq.
Qed.

Lemma count_letters_on_key (letters : list symbol) (x : symbol) :
  NoDup letters -> (countZ (fun s => symbol_eqb s x) letters <= 1)%Z.
Proof.
  induction 1 as [|a l Hnotin Hnd IH]; [unfold countZ; simpl; lia|].
  rewrite countZ_cons. destruct (symbol_eqb a x) eqn:Ha; cbn [Z.b2z]; [|lia].
  apply symbol_eqb_eq in Ha. subst a.
  rewrite countZ_zero; [lia|].
  intros s Hs. apply not_true_is_false. rewrite symbol_eqb_eq.
  intros ->. contradiction.
Qed.

(** Every rearrangement of an alphabet of distinct letters satisfies the
    constraints. *)
Lemma layout_assignment_ok (letters arr : list symbol) :
  NoDup letters -> Permutation arr letters ->
  assignment_ok letters (layout_valuation arr).
Proof.
  intros Hnd Hperm.
  assert (Hlen : length arr = length letters) by now apply Permutation_length.
  split.
  - intros s Hs. rewrite Sum_map. simpl. rewrite <- Hlen, count_keys_of_letter.
    apply count_letter_NoDup.
    + apply (Permutation_NoDup (Permutation_sym Hperm) Hnd).
    + apply (Permutation_in _ (Permutation_sym Hperm) Hs).
  - intros k Hk. rewrite Sum_map. simpl. unfold placed.
    destruct (nth_error arr k) as [x|].
    + now apply count_letters_on_key.
    + rewrite countZ_zero; [lia | reflexivity].
  - intros l1 l2 k1 k2 _ _ _. reflexivity.
Qed.

(** Decoding the valuation of a layout gives the layout back. *)
Lemma layout_slot (letters arr : list symbol) (k : nat) :
  NoDup letters -> Permutation arr letters -> k < length letters ->
  slot (layout_valuation arr) letters k = nth_error arr k.
Proof.
  intros Hnd Hperm Hk.
  pose proof (layout_assignment_ok letters arr Hnd Hperm) as Hok.
  destruct (slot_filled letters _ Hok k Hk) as (s & Hs & _ & Hv).
  rewrite Hs. simpl in Hv. symmetry. now apply placed_true.
Qed.

Lemma layout_decode (letters arr : list symbol) :
  NoDup letters -> Permutation arr letters ->
  decode (layout_valuation arr) letters = Return (map Some arr).
Proof.
  intros Hnd Hperm. rewrite decode_spec. f_equal.
  assert (Hlen : length arr = length letters) by now apply Permutation_length.
  apply nth_error_ext. intros k.
  rewrite !nth_error_map, nth_error_range.
  destruct (Nat.ltb_spec k (length letters)) as [Hk|Hk].
  - simpl. rewrite (layout_slot letters arr k Hnd Hperm Hk).
    destruct (nth_error arr k) eqn:Hx; [reflexivity|].
    apply nth_error_None in Hx. lia.
  - simpl. replace (nth_error arr k) with (@None symbol); [reflexivity|].
    symmetry. apply nth_error_None. lia.
Qed.

(** ** The objective on a feasible valuation *)

Lemma sumZ_flat_map {A B : Type} (h : B -> Z) (f : A -> list B) (l : list A) :
  sumZ (map h (flat_map f l)) = sumZ (map (fun a => sumZ (map h (f a))) l).
Proof.
  induction l as [|a l IH]; simpl; [reflexivity|].
  now rewrite map_app, sumZ_app, IH.
Qed.

Lemma enumerate_range (n : nat) :
  enumerate (range n) = map (fun i => (i, i)) (range n).
Proof.
  unfold enumerate, range. rewrite length_seq. generalize 0.
  induction n as [|n IH]; intros s; simpl; [reflexivity | now rewrite IH].
Qed.

(** A sum over the pairs of keys [k1 < k2] as a double sum over the keys. *)
Lemma sumZ_key_pairs (h : nat * nat -> Z) (n : nat) :
  sumZ (map h (combinations2 (range n)))
  = sumZ (map (fun i =>
                 sumZ (map (fun j => if Nat.ltb i j then h (i, j) else 0%Z)
                           (range n)))
              (range n)).
Proof.
  unfold combinations2. rewrite enumerate_range, sumZ_flat_map, map_map.
  f_equal. apply map_ext. intros i. rewrite sumZ_flat_map, map_map.
  f_equal. apply map_ext. intros j. simpl.
  destruct (Nat.ltb i j); simpl; lia.
Qed.

(** A sum with a single term that is not zero. *)
Lemma sumZ_single (h : nat -> Z) (p n : nat) :
  sumZ (map (fun k => if Nat.eqb k p then h k else 0%Z) (range n))
  = if Nat.ltb p n then h p else 0%Z.
Proof.
  unfold range. induction n as [|n IH]; [reflexivity|].
  rewrite seq_S, map_app, sumZ_app, IH. simpl.
  destruct (Nat.eqb_spec n p) as [-> | Hne].
  - rewrite Nat.ltb_irrefl.
    destruct (Nat.ltb_spec p (S p)); [lia | lia].
  - destruct (Nat.ltb_spec p n), (Nat.ltb_spec p (S n)); lia.
Qed.

Lemma sumZ_pair_single (c : Z) (p1 p2 n : nat) :
  p1 < n -> p2 < n ->
  sumZ (map (fun kk : nat * nat =>
               if Nat.eqb (fst kk) p1 && Nat.eqb (snd kk) p2 then c else 0%Z)
            (combinations2 (range n)))
  = if Nat.ltb p1 p2 then c else 0%Z.
Proof.
  intros H1 H2. rewrite sumZ_key_pairs.
  rewrite map_ext with
    (g := fun i => if Nat.eqb i p1
                   then (if Nat.ltb p1 p2 then c else 0%Z) else 0%Z).
  - rewrite (sumZ_single (fun _ => if Nat.ltb p1 p2 then c else 0%Z)).
    destruct (Nat.ltb_spec p1 n); [reflexivity | lia].
  - intros i.
    rewrite map_ext with
      (g := fun j => if Nat.eqb j p2
                     then (if Nat.ltb i p2 && Nat.eqb i p1 then c else 0%Z)
                     else 0%Z).
    + rewrite (sumZ_single
                 (fun _ => if Nat.ltb i p2 && Nat.eqb i p1 then c else 0%Z)).
      destruct (Nat.ltb_spec p2 n); [|lia].
      destruct (Nat.eqb_spec i p1) as [-> | Hne].
      * now rewrite andb_true_r.
      * now rewrite andb_false_r.
    + intros j. simpl.
      destruct (Nat.eqb_spec j p2) as [-> | Hne].
      * rewrite andb_true_r. destruct (Nat.ltb i p2), (Nat.eqb i p1); reflexivity.
      * rewrite andb_false_r. now destruct (Nat.ltb i j).
Qed.

Lemma position_first (arr : list (option symbol)) (s : symbol) (p : nat) :
  nth_error arr p = Some (Some s) ->
  (forall k, k < p -> nth_error arr k <> Some (Some s)) ->
  position arr s = p.
Proof.
  revert p. induction arr as [|x arr IH]; intros p Hp Hfirst.
  - destruct p; discriminate.
  - simpl. destruct (slot_eq_dec x (Some s)) as [-> | Hne].
    + destruct p as [|p]; [reflexivity|].
      exfalso. apply (Hfirst 0); [lia | reflexivity].
    + destruct p as [|p]; [simpl in Hp; congruence|].
      f_equal. apply IH; [exact Hp|].
      intros k Hk. apply (Hfirst (S k)). lia.
Qed.

Section ObjectiveOnFeasible.
Variable letters : list symbol.
Variable v : valuation.
Hypothesis Hok : assignment_ok letters v.

(** The key of a letter read off the decoded array is the key on which its
    assignment variable is true. *)
Lemma decoded_position (s : symbol) :
  In s letters ->
  position (map (slot v letters) (range (length letters))) s < length letters /\
  forall k, k < length letters ->
    v (AVar s k)
    = Nat.eqb k (position (map (slot v letters) (range (length letters))) s).
Proof.
  intros Hs. destruct (letter_has_key letters v Hok s Hs) as (p & Hp & Hv).
  assert (Hnth : forall k, k < length letters ->
            nth_error (map (slot v letters) (range (length letters))) k
            = Some (slot v letters k)).
  { intros k Hk. rewrite nth_error_map, nth_error_range.
    destruct (Nat.ltb_spec k (length letters)); [reflexivity | lia]. }
  assert (Hpos : position (map (slot v letters) (range (length letters))) s = p).
  { apply position_first.
    - rewrite (Hnth p Hp). f_equal. now apply slot_is_the_letter.
    - intros k Hk. rewrite (Hnth k) by lia. intros H. injection H as H.
      apply slot_Some in H. destruct H as [_ H].
      pose proof (letter_key_unique letters v Hok s k p Hs ltac:(lia) Hp H Hv).
      lia. }
  rewrite Hpos. split; [exact Hp|].
  intros k Hk. destruct (Nat.eqb_spec k p) as [-> | Hne]; [exact Hv|].
  apply not_true_is_false. intros H. apply Hne.
  exact (letter_key_unique letters v Hok s k p Hs Hk Hp H Hv).
Qed.
End ObjectiveOnFeasible.

(** On a valuation that satisfies the constraints, the composed objective
    is the cost of the pairs whose first letter is on the lower key. *)
Lemma objective_value_one_way penalty2 letters input_text m v :
  build_model penalty2 letters input_text = Return m ->
  feasible m v = true ->
  objective_value m v
  = one_way_cost penalty2 letters input_text
      (map (slot v letters) (range (length letters))).
Proof.
  intros Hm Hf. rewrite (objective_value_built _ _ _ _ v Hm).
  apply (feasible_spec _ _ _ _ v Hm) in Hf.
  unfold objective_terms_of, one_way_cost. rewrite sumZ_flat_map.
  f_equal. apply map_ext_in. intros [s1 s2] Hll. simpl.
  assert (H1 : In s1 letters /\ In s2 letters).
  { apply in_permutations2 in Hll. destruct Hll as (i & j & _ & Hi & Hj).
    split; eapply nth_error_In; eassumption. }
  destruct (decoded_position letters v Hf s1 (proj1 H1)) as [Hp1 Hv1].
  destruct (decoded_position letters v Hf s2 (proj2 H1)) as [Hp2 Hv2].
  set (p1 := position (map (slot v letters) (range (length letters))) s1) in *.
  set (p2 := position (map (slot v letters) (range (length letters))) s2) in *.
  rewrite <- (sumZ_pair_single
                (frequency input_text s1 s2 * penalty_nth penalty2 p1 p2)%Z
                p1 p2 (length letters) Hp1 Hp2).
  rewrite map_map. f_equal. apply map_ext_in. intros [k1 k2] Hkk. simpl.
  apply in_key_pairs in Hkk. destruct Hkk as [Hlt Hn].
  unfold Value.
  rewrite (link_is_and _ _ Hf s1 s2 k1 k2 Hll Hlt Hn).
  rewrite (Hv1 k1) by lia. rewrite (Hv2 k2) by lia.
  destruct (Nat.eqb_spec k1 p1) as [-> | Hne1];
    destruct (Nat.eqb_spec k2 p2) as [-> | Hne2]; simpl; lia.
Qed.

(** ** [optimize_keymap] as a whole *)

Lemma optimize_keymap_built (solve : solver) (penalty2 : list (list Z))
    (letters : list symbol) (input_text : string) m :
  build_model penalty2 letters input_text = Return m ->
  optimize_keymap solve penalty2 letters input_text
  = if solved (fst (solve m))
    then Return (Some (map (slot (snd (solve m)) letters) (range (length letters))))
    else Return None.
Proof.
  intros Hm. unfold optimize_keymap. rewrite Hm. simpl.
  destruct (solve m) as [st v]. simpl.
  destruct (solved st); [|reflexivity].
  now rewrite decode_spec.
Qed.

Lemma optimize_keymap_Some (solve : solver) (penalty2 : list (list Z))
    (letters : list symbol) (input_text : string) arr :
  optimize_keymap solve penalty2 letters input_text = Return (Some arr) ->
  exists m,
    build_model penalty2 letters input_text = Return m /\
    solved (fst (solve m)) = true /\
    arr = map (slot (snd (solve m)) letters) (range (length letters)).
Proof.
  intros H. destruct (build_model penalty2 letters input_text) as [e|m] eqn:Hm.
  - unfold optimize_keymap in H. rewrite Hm in H. discriminate.
  - rewrite (optimize_keymap_built solve _ _ _ m Hm) in H.
    exists m. destruct (solved (fst (solve m))); [|discriminate].
    injection H as <-. auto.
Qed.

Lemma solved_spec (st : status) :
  solved st = false <-> st <> OPTIMAL /\ st <> FEASIBLE.
Proof.
  destruct st; simpl; split; try (intros; discriminate); try (split; discriminate);
    intros [H1 H2]; congruence.
Qed.

Lemma checking_solver_sound (v : valuation) : solver_sound (checking_solver v).
Proof.
  intros m. unfold checking_solver.
  destruct (feasible m v) eqn:Hf; simpl; [intros _; exact Hf | discriminate].
Qed.

(** ** Scaling the frequencies of an integer model *)

(** The model of the scaled frequency map. *)
Lemma scaled_model (c : Z) (freq : symbol -> symbol -> Z)
    (penalty2 : list (list Z)) (letters : list symbol) (m : model) :
  (0 < c)%Z ->
  build_model_with freq penalty2 letters = Return m ->
  exists m',
    build_model_with (scaled c freq) penalty2 letters = Return m' /\
    obj_expr m' = obj_expr m /\
    obj_coef m' = map (Z.mul c) (obj_coef m) /\
    constraints m' = constraints m /\
    (forall v, objective_value m' v = (c * objective_value m v)%Z) /\
    (forall v, optimal m' v <-> optimal m v).
Proof.
  intros Hc Hm.
  pose proof Hm as Hm0. apply build_model_with_Return in Hm0.
  destruct Hm0 as (terms & Ht & Hmeq).
  pose proof (objective_terms_Return _ _ _ _ Ht) as Hterms.
  pose proof (objective_terms_any_freq freq (scaled c freq) _ _ _ Ht) as Ht'.
  eexists. split.
  { apply build_model_with_Return. eexists. split; [exact Ht' | reflexivity]. }
  assert (Hval : forall v,
    objective_value
      {| variables := assignment_vars letters ++ link_vars letters;
         constraints := model_constraints letters;
         obj_expr := map fst (objective_terms_of (scaled c freq) penalty2 letters);
         obj_coef := map snd (objective_terms_of (scaled c freq) penalty2 letters) |} v
    = (c * objective_value m v)%Z).
  { intros v. rewrite (objective_value_built _ _ _ _ v Hm).
    unfold objective_value. simpl. rewrite WeightedSum_terms.
    rewrite objective_terms_scaled, map_map, <- sumZ_map_scale.
    f_equal. apply map_ext. intros t. simpl. ring. }
  split; [|split; [|split; [|split]]].
  - subst m. simpl. rewrite Hterms, objective_terms_scaled, map_map. reflexivity.
  - subst m. simpl. rewrite Hterms, objective_terms_scaled, !map_map. reflexivity.
  - subst m. reflexivity.
  - exact Hval.
  - assert (Hfeas : forall v,
      feasible
        {| variables := assignment_vars letters ++ link_vars letters;
           constraints := model_constraints letters;
           obj_expr := map fst (objective_terms_of (scaled c freq) penalty2 letters);
           obj_coef := map snd (objective_terms_of (scaled c freq) penalty2 letters) |} v
      = feasible m v) by (intros v; subst m; reflexivity).
    intros v. unfold optimal. rewrite Hfeas. split; intros [Hf Hmin]; (split; [exact Hf|]).
    + intros v' Hf'. rewrite <- Hfeas in Hf'. specialize (Hmin v' Hf').
      rewrite !Hval in Hmin. apply Z.mul_le_mono_pos_l in Hmin; assumption.
    + intros v' Hf'. rewrite Hfeas in Hf'. rewrite !Hval.
      apply Z.mul_le_mono_pos_l; [assumption|]. now apply Hmin.
Qed.

(** ** The size of the model *)

Section PairCounts.
Context {A : Type}.

Lemma length_enumerate (l : list A) : length (enumerate l) = length l.
Proof.
  unfold enumerate. rewrite length_combine, length_seq. lia.
Qed.

Lemma list_sum_over_keys (g : nat -> nat) (l : list A) :
  list_sum (map (fun jy : nat * A => g (fst jy)) (enumerate l))
  = list_sum (map g (seq 0 (length l))).
Proof.
  rewrite <- (map_map fst g), enumerate_keys. reflexivity.
Qed.

Lemma count_other_keys (i n : nat) :
  list_sum (map (fun j => if Nat.eqb i j then 0 else 1) (seq 0 n))
  = if Nat.ltb i n then n - 1 else n.
Proof.
  induction n as [|n IH]; [reflexivity|].
  rewrite seq_S, map_app, list_sum_app, IH. simpl.
  destruct (Nat.eqb_spec i n), (Nat.ltb_spec i n), (Nat.ltb_spec i (S n)); lia.
Qed.

Lemma count_higher_keys (i n : nat) :
  list_sum (map (fun j => if Nat.ltb i j then 1 else 0) (seq 0 n)) = n - S i.
Proof.
  induction n as [|n IH]; [reflexivity|].
  rewrite seq_S, map_app, list_sum_app, IH. simpl.
  destruct (Nat.ltb_spec i n); lia.
Qed.

Lemma sum_of_gaps (a m : nat) :
  2 * list_sum (map (fun i => a + m - S i) (seq a m)) = m * (m - 1).
Proof.
  revert a. induction m as [|m IH]; intros a; [reflexivity|].
  cbn [seq map list_sum fold_right].
  rewrite map_ext with (g := fun i => S a + m - S i) by (intros; lia).
  specialize (IH (S a)). unfold list_sum in IH.
  replace (a + S m - S a) with m by lia.
  destruct m as [|m]; [simpl in *; lia|]. nia.
Qed.

(** [permutations(pool, 2)] has [n * (n - 1)] pairs. *)
Lemma length_permutations2 (pool : list A) :
  length (permutations2 pool) = length pool * (length pool - 1).
Proof.
  unfold permutations2.
  rewrite (flat_map_constant_length (c := length pool - 1)).
  - now rewrite length_enumerate.
  - intros [i x] Hix. rewrite length_flat_map.
    rewrite map_ext with
      (g := fun jy : nat * A => if Nat.eqb i (fst jy) then 0 else 1)
      by (intros [j y]; simpl; now destruct (Nat.eqb i j)).
    rewrite (list_sum_over_keys (fun j => if Nat.eqb i j then 0 else 1)).
    rewrite count_other_keys.
    apply in_enumerate in Hix.
    assert (i < length pool) by (apply nth_error_Some; congruence).
    destruct (Nat.ltb_spec i (length pool)); lia.
Qed.

(** [combinations(pool, 2)] has [n * (n - 1) / 2] pairs. *)
Lemma length_combinations2 (pool : list A) :
  2 * length (combinations2 pool) = length pool * (length pool - 1).
Proof.
  unfold combinations2. rewrite length_flat_map.
  rewrite map_ext with
    (g := fun ix : nat * A => length pool - S (fst ix)).
  - rewrite (list_sum_over_keys (fun i => length pool - S i)).
    apply (sum_of_gaps 0).
  - intros [i x]. rewrite length_flat_map.
    rewrite map_ext with
      (g := fun jy : nat * A => if Nat.ltb i (fst jy) then 1 else 0)
      by (intros [j y]; simpl; now destruct (Nat.ltb i j)).
    rewrite (list_sum_over_keys (fun j => if Nat.ltb i j then 1 else 0)).
    apply count_higher_keys.
Qed.
End PairCounts.

Lemma length_assignment_vars (letters : list symbol) :
  length (assignment_vars letters) = length letters * length letters.
Proof.
  unfold assignment_vars. apply flat_map_constant_length.
  intros s _. now rewrite length_map, length_enumerate.
Qed.

Lemma length_key_pairs (n : nat) :
  2 * length (combinations2 (range n)) = n * (n - 1).
Proof.
  rewrite length_combinations2, length_range. reflexivity.
Qed.

Lemma length_link_vars (letters : list symbol) :
  2 * length (link_vars letters)
  = (length letters * (length letters - 1))
    * (length letters * (length letters - 1)).
Proof.
  unfold link_vars.
  rewrite (flat_map_constant_length
             (c := length (combinations2 (range (length letters)))))
    by (intros; apply length_map).
  rewrite length_permutations2.
  pose proof (length_key_pairs (length letters)). nia.
Qed.

Lemma length_link_constraints (letters : list symbol) :
  length (link_constraints letters) = 2 * length (link_vars letters).
Proof.
  unfold link_constraints, link_vars.
  rewrite (flat_map_constant_length
             (c := length (combinations2 (range (length letters))) * 2)).
  - rewrite (flat_map_constant_length
               (c := length (combinations2 (range (length letters)))))
      by (intros; apply length_map).
    lia.
  - intros [l1 l2] _. apply flat_map_constant_length.
    intros [k1 k2] _. reflexivity.
Qed.

Lemma objective_terms_vars freq penalty2 letters :
  map fst (objective_terms_of freq penalty2 letters) = link_vars letters.
Proof.
  unfold objective_terms_of, link_vars.
  induction (permutations2 letters) as [|ll L IH]; simpl; [reflexivity|].
  rewrite map_app, IH, map_map. reflexivity.
Qed.

(** ** What the construction of the model reads *)

Lemma mapM_ext_in {A B : Type} (f g : A -> M B) (l : list A) :
  (forall x, In x l -> f x = g x) -> mapM f l = mapM g l.
Proof.
  induction l as [|x l IH]; intros H; simpl; [reflexivity|].
  rewrite (H x (or_introl eq_refl)), IH; [reflexivity|].
  intros y Hy. apply H. now right.
Qed.

Lemma objective_terms_ext freq freq' penalty2 penalty2' letters :
  (forall l1 l2, In (l1, l2) (permutations2 letters) -> freq l1 l2 = freq' l1 l2) ->
  (forall k1 k2, k1 < k2 -> k2 < length letters ->
     penalty_at penalty2 k1 k2 = penalty_at penalty2' k1 k2) ->
  objective_terms freq penalty2 letters = objective_terms freq' penalty2' letters.
Proof.
  intros Hf Hp. unfold objective_terms. f_equal.
  apply mapM_ext_in. intros [l1 l2] Hll. rewrite (Hf l1 l2 Hll).
  apply mapM_ext_in. intros [k1 k2] Hkk. apply in_key_pairs in Hkk.
  now rewrite (Hp k1 k2) by lia.
Qed.

Lemma exn_unique (e : exn) : e = IndexError.
Proof.
  now destruct e.
Qed.

Lemma mapM_Raise {A B : Type} (f : A -> M B) (l : list A) (e : exn) :
  mapM f l = Raise e <-> exists x, In x l /\ f x = Raise IndexError.
Proof.
  destruct e. induction l as [|x l IH]; simpl.
  - split; [discriminate | intros (x & [] & _)].
  - destruct (f x) as [[]|y] eqn:Hx; simpl.
    + split; [|reflexivity]. intros _. exists x. auto.
    + destruct (mapM f l) as [[]|ys] eqn:Hl; simpl.
      * split; [|reflexivity].
        intros _. destruct (proj1 IH eq_refl) as (x' & Hin & Hx').
        exists x'. auto.
      * split; [discriminate|].
        intros (x' & [<- | Hin] & Hx'); [congruence|].
        assert (H : @Return (list B) ys = Raise IndexError)
          by (apply IH; exists x'; auto).
        discriminate.
Qed.

Lemma penalty_at_Raise (penalty2 : list (list Z)) (k1 k2 : nat) :
  penalty_at penalty2 k1 k2 = Raise IndexError <->
  length penalty2 <= k1 \/ length (nth k1 penalty2 []) <= k2.
Proof.
  unfold penalty_at, getitem.
  destruct (nth_error penalty2 k1) as [row|] eqn:Hrow; simpl.
  - rewrite (nth_error_nth _ _ [] Hrow).
    assert (k1 < length penalty2) by (apply nth_error_Some; congruence).
    destruct (nth_error row k2) as [z|] eqn:Hz.
    + assert (k2 < length row) by (apply nth_error_Some; congruence).
      split; [discriminate | lia].
    + apply nth_error_None in Hz. split; [now right | reflexivity].
  - apply nth_error_None in Hrow. split; [now left | reflexivity].
Qed.

(** The first letters of an alphabet with two places or more make a pair. *)
Lemma permutations2_inhabited {A : Type} (pool : list A) :
  2 <= length pool -> exists ab, In ab (permutations2 pool).
Proof.
  destruct pool as [|a [|b pool]]; intros H; simpl in H; try lia.
  exists (a, b). apply in_permutations2. exists 0, 1. auto.
Qed.

Lemma objective_terms_Raise freq penalty2 letters :
  objective_terms freq penalty2 letters = Raise IndexError <->
  exists k1 k2, k1 < k2 /\ k2 < length letters /\
    (length penalty2 <= k1 \/ length (nth k1 penalty2 []) <= k2).
Proof.
  unfold objective_terms.
  destruct (mapM _ (permutations2 letters)) as [e|tss] eqn:Hm; simpl.
  - destruct e. split; [intros _ | reflexivity].
    apply mapM_Raise in Hm. destruct Hm as ([l1 l2] & _ & Hm).
    apply mapM_Raise in Hm. destruct Hm as ([k1 k2] & Hkk & Hm).
    apply in_key_pairs in Hkk. exists k1, k2.
    split; [tauto|]. split; [tauto|].
    apply penalty_at_Raise.
    destruct (penalty_at penalty2 k1 k2) as [[]|z]; [reflexivity | discriminate].
  - split; [discriminate|]. intros (k1 & k2 & Hlt & Hn & Hlen). exfalso.
    destruct (permutations2_inhabited letters) as ([l1 l2] & Hll); [lia|].
    destruct (mapM_Return_in _ _ _ Hm (l1, l2) Hll) as (ts & Hts).
    simpl in Hts.
    destruct (mapM_Return_in _ _ _ Hts (k1, k2)) as (t & Ht).
    { apply in_key_pairs. lia. }
    simpl in Ht. apply penalty_at_Raise in Hlen. rewrite Hlen in Ht. discriminate.
Qed.

Lemma build_model_with_Raise freq penalty2 letters :
  build_model_with freq penalty2 letters = Raise IndexError <->
  objective_terms freq penalty2 letters = Raise IndexError.
Proof.
  unfold build_model_with.
  destruct (objective_terms freq penalty2 letters) as [[]|terms]; simpl;
    split; intros H; try reflexivity; discriminate.
Qed.

Lemma optimize_keymap_Raise (solve : solver) (penalty2 : list (list Z))
    (letters : list symbol) (input_text : string) :
  optimize_keymap solve penalty2 letters input_text = Raise IndexError <->
  build_model penalty2 letters input_text = Raise IndexError.
Proof.
  destruct (build_model penalty2 letters input_text) as [[]|m] eqn:Hm.
  - unfold optimize_keymap. rewrite Hm. simpl. tauto.
  - rewrite (optimize_keymap_built solve _ _ _ m Hm).
    destruct (solved (fst (solve m))); split; discriminate.
Qed.

(** ** The decoder on an arbitrary valuation *)

Lemma slot_fold_last (v : valuation) (k : nat) (ls : list symbol)
    (acc : option symbol) (s : symbol) :
  fold_left (fun old letter => if v (AVar letter k) then Some letter else old) ls acc
  = Some s <->
  (exists pre post, ls = (pre ++ s :: post)%list /\ v (AVar s k) = true /\
                    forall x, In x post -> v (AVar x k) = false)
  \/ (acc = Some s /\ forall x, In x ls -> v (AVar x k) = false).
Proof.
  revert acc. induction ls as [|a ls IH]; intros acc; simpl.
  - split.
    + intros H. right. split; [exact H | intros x []].
    + intros [(pre & post & H & _) | [H _]]; [|exact H].
      destruct pre; discriminate.
  - rewrite IH. split.
    + intros [(pre & post & -> & Hv & Hpost) | [Hacc Hall]].
      * left. exists (a :: pre), post. auto.
      * destruct (v (AVar a k)) eqn:Ha.
        -- injection Hacc as <-. left. exists [], ls. auto.
        -- right. split; [exact Hacc|]. intros x [<- | Hx]; auto.
    + intros [(pre & post & Heq & Hv & Hpost) | [Hacc Hall]].
      * destruct pre as [|b pre]; simpl in Heq; injection Heq as <- ->.
        -- right. rewrite Hv. split; [reflexivity | exact Hpost].
        -- left. exists pre, post. auto.
      * right. rewrite (Hall a (or_introl eq_refl)).
        split; [exact Hacc|]. intros x Hx. apply Hall. now right.
Qed.

Lemma slot_last (v : valuation) (letters : list symbol) (k : nat) (s : symbol) :
  slot v letters k = Some s <->
  exists pre post, letters = (pre ++ s :: post)%list /\ v (AVar s k) = true /\
                   forall x, In x post -> v (AVar x k) = false.
Proof.
  unfold slot. rewrite slot_fold_last. split.
  - intros [H | [H _]]; [exact H | discriminate].
  - intros H. now left.
Qed.

(** ** Feasible valuations and layouts *)

Lemma in_link_vars (letters : list symbol) (x : var) :
  In x (link_vars letters) <->
  exists l1 l2 k1 k2,
    x = LVar l1 l2 k1 k2 /\ In (l1, l2) (permutations2 letters) /\
    k1 < k2 /\ k2 < length letters.
Proof.
  unfold link_vars. rewrite in_flat_map. split.
  - intros ([l1 l2] & Hll & H). apply in_map_iff in H.
    destruct H as ([k1 k2] & <- & Hkk). apply in_key_pairs in Hkk.
    exists l1, l2, k1, k2. simpl. tauto.
  - intros (l1 & l2 & k1 & k2 & -> & Hll & Hlt & Hn).
    exists (l1, l2). split; [exact Hll|].
    apply in_map_iff. exists (k1, k2). split; [reflexivity|].
    apply in_key_pairs. lia.
Qed.

Lemma in_permutations2_letters {A : Type} (pool : list A) (a b : A) :
  In (a, b) (permutations2 pool) -> In a pool /\ In b pool.
Proof.
  intros H. apply in_permutations2 in H. destruct H as (i & j & _ & Hi & Hj).
  split; eapply nth_error_In; eassumption.
Qed.

Section FeasibleIsLayout.
Variable letters : list symbol.
Variable v : valuation.
Hypothesis Hok : assignment_ok letters v.

(** The decoded array is the image of a rearrangement of the alphabet. *)
Lemma decoded_layout :
  exists arr,
    map (slot v letters) (range (length letters)) = map Some arr /\
    Permutation arr letters.
Proof.
  destruct (Permutation_map_inv Some letters
              (decoded_Permutation letters v Hok)) as (arr & Harr & Hperm).
  exists arr. split; [exact Harr | now apply Permutation_sym].
Qed.

Lemma assignment_var_of_layout (arr : list symbol) (s : symbol) (k : nat) :
  map (slot v letters) (range (length letters)) = map Some arr ->
  In s letters -> k < length letters ->
  v (AVar s k) = placed arr s k.
Proof.
  intros Harr Hs Hk. apply eq_iff_eq_true.
  rewrite <- (slot_is_the_letter letters v Hok k s Hk Hs), placed_true.
  assert (Hnth : nth_error (map Some arr) k = Some (slot v letters k)).
  { rewrite <- Harr, nth_error_map, nth_error_range.
    destruct (Nat.ltb_spec k (length letters)); [reflexivity | lia]. }
  rewrite nth_error_map in Hnth.
  destruct (nth_error arr k) as [x|]; simpl in Hnth; [|discriminate].
  injection Hnth as Hnth. rewrite <- Hnth. split; congruence.
Qed.

Lemma valuation_of_layout (arr : list symbol) (x : var) :
  map (slot v letters) (range (length letters)) = map Some arr ->
  In x (assignment_vars letters ++ link_vars letters) ->
  v x = layout_valuation arr x.
Proof.
  intros Harr Hx. apply in_app_or in Hx. destruct Hx as [Hx | Hx].
  - destruct x as [s k | l1 l2 k1 k2].
    + apply in_assignment_vars in Hx. simpl.
      now apply assignment_var_of_layout.
    + unfold assignment_vars in Hx. apply in_flat_map in Hx.
      destruct Hx as (s & _ & Hx). apply in_map_iff in Hx.
      destruct Hx as (kx & Hx & _). discriminate.
  - apply in_link_vars in Hx.
    destruct Hx as (l1 & l2 & k1 & k2 & -> & Hll & Hlt & Hn).
    rewrite (link_is_and _ _ Hok l1 l2 k1 k2 Hll Hlt Hn). simpl.
    destruct (in_permutations2_letters letters l1 l2 Hll) as [H1 H2].
    rewrite (assignment_var_of_layout arr l1 k1 Harr H1) by lia.
    now rewrite (assignment_var_of_layout arr l2 k2 Harr H2 Hn).
Qed.
End FeasibleIsLayout.

(** ** The printed layout *)

Lemma string_app_assoc (a b c : string) :
  ((a ++ b) ++ c)%string = (a ++ b ++ c)%string.
Proof.
  induction a as [|x a IH]; simpl; [reflexivity | now rewrite IH].
Qed.

Lemma string_app_empty_r (a : string) : (a ++ EmptyString)%string = a.
Proof.
  induction a as [|x a IH]; simpl; [reflexivity | now rewrite IH].
Qed.

Lemma join_app (l1 l2 : list string) :
  join (l1 ++ l2) = (join l1 ++ join l2)%string.
Proof.
  induction l1 as [|p l1 IH]; simpl; [reflexivity|].
  now rewrite IH, string_app_assoc.
Qed.

Lemma combine_seq_app {A : Type} (l1 l2 : list A) (start : nat) :
  combine (seq start (length (l1 ++ l2))) (l1 ++ l2)
  = (combine (seq start (length l1)) l1
     ++ combine (seq (start + length l1) (length l2)) l2)%list.
Proof.
  revert start. induction l1 as [|a l1 IH]; intros start; simpl.
  - now rewrite Nat.add_0_r.
  - rewrite IH. now rewrite Nat.add_succ_r.
Qed.

Lemma column_of (q c : nat) : c < 10 -> (10 * q + c) mod 10 = c.
Proof.
  intros Hc. symmetry. apply (Nat.mod_unique _ 10 q c); lia.
Qed.

(** A stretch of entries that stays within one row of ten: the end of line
    is written only when the stretch reaches the tenth column. *)
Lemma print_chunk (row : list (option symbol)) (q c : nat) :
  c + length row <= 10 -> c < 10 ->
  join (map print_item (combine (seq (10 * q + c) (length row)) row))
  = (row_text row
     ++ (if Nat.eqb (c + length row) 10 then newline else EmptyString))%string.
Proof.
  revert c. induction row as [|l row IH]; intros c Hlen Hc.
  - simpl. destruct (Nat.eqb_spec (c + 0) 10); [lia | reflexivity].
  - cbn [length seq combine map join]. unfold print_item at 1. cbn [fst snd].
    rewrite (column_of q c Hc). unfold row_text. cbn [map join].
    fold (row_text row). rewrite !string_app_assoc. f_equal. f_equal.
    simpl in Hlen. destruct row as [|l' row'].
    + simpl. destruct (Nat.eqb_spec c 9), (Nat.eqb_spec (c + 1) 10);
        try lia; reflexivity.
    + destruct (Nat.eqb_spec c 9) as [-> | Hne]; [simpl in Hlen; lia|].
      replace (S (10 * q + c)) with (10 * q + S c) by lia.
      rewrite (IH (S c)) by (simpl in *; lia).
      replace (S c + length (l' :: row')) with (c + length (l :: l' :: row'))
        by (simpl; lia).
      reflexivity.
Qed.

Lemma print_rows_from (rows : list (list (option symbol)))
    (rest : list (option symbol)) (q : nat) :
  Forall (fun row => length row = 10) rows ->
  length rest < 10 ->
  join (map print_item
          (combine (seq (10 * q) (length (concat rows ++ rest)))
                   (concat rows ++ rest)))
  = (join (map (fun row => (row_text row ++ newline)%string) rows)
     ++ row_text rest)%string.
Proof.
  intros Hrows Hrest. revert q.
  induction Hrows as [|row rows Hrow _ IH]; intros q.
  - cbn [concat map join app]. pose proof (print_chunk rest q 0) as H.
    rewrite Nat.add_0_r in H. rewrite H by lia.
    destruct (Nat.eqb_spec (0 + length rest) 10); [lia|].
    cbn [append]. apply string_app_empty_r.
  - cbn [concat map join]. rewrite <- app_assoc, combine_seq_app, map_app, join_app.
    pose proof (print_chunk row q 0) as H.
    rewrite Nat.add_0_r in H. rewrite H by lia.
    rewrite Hrow. simpl Nat.eqb. cbv iota.
    replace (10 * q + 10) with (10 * S q) by lia.
    rewrite IH. now rewrite !string_app_assoc.
Qed.

(** ** [str.count] and the occurrences of a substring *)

Lemma prefix_append (sub s : string) :
  prefix sub s = true <-> exists post, s = (sub ++ post)%string.
Proof.
  revert s. induction sub as [|a sub IH]; intros s.
  - split; [|now destruct s]. intros _. now exists s.
  - destruct s as [|b s]; simpl.
    + split; [discriminate | intros [post H]; discriminate].
    + destruct (ascii_dec a b) as [<- | Hne].
      * rewrite IH. split; intros [post H]; exists post; congruence.
      * split; [discriminate | intros [post H]; congruence].
Qed.

Lemma prefix_length (sub s : string) :
  prefix sub s = true -> String.length sub <= String.length s.
Proof.
  revert s. induction sub as [|a sub IH]; intros s H; simpl; [lia|].
  destruct s as [|b s]; simpl in H; [discriminate|].
  destruct (ascii_dec a b); [|discriminate].
  apply IH in H. simpl. lia.
Qed.

(** [sub] starts somewhere in [s]. *)
Lemma occurrences_positive (sub s : string) :
  sub <> EmptyString ->
  (0 < occurrences sub s <-> exists pre post, s = (pre ++ sub ++ post)%string).
Proof.
  intros Hsub. induction s as [|c s IH].
  - simpl. split; [lia|]. intros (pre & post & H).
    destruct pre; [destruct sub; [congruence | discriminate] | discriminate].
  - cbn [occurrences]. split.
    + intros H. destruct (prefix sub (String c s)) eqn:Hp.
      * apply prefix_append in Hp. destruct Hp as [post Hp].
        exists EmptyString, post. exact Hp.
      * destruct (proj1 IH) as (pre & post & Hs); [simpl in H; lia|].
        exists (String c pre), post. simpl. now rewrite Hs.
    + intros (pre & post & H). destruct pre as [|c' pre]; simpl in H.
      * assert (Hp : prefix sub (String c s) = true)
          by (apply prefix_append; now exists post).
        rewrite Hp. lia.
      * injection H as <- Hs.
        assert (0 < occurrences sub s) by (apply IH; now exists pre, post).
        lia.
Qed.

(** The scan that skips behind every match counts no more than there are
    starting positions. *)
Lemma count_scan_le_occurrences (sub s : string) (skip : nat) :
  count_scan sub s skip <= occurrences sub s.
Proof.
  revert skip. induction s as [|c s IH]; intros skip; [simpl; lia|].
  cbn [count_scan occurrences]. destruct skip as [|skip].
  - destruct (prefix sub (String c s)).
    + specialize (IH (String.length sub - 1)). lia.
    + specialize (IH 0). lia.
  - specialize (IH skip). lia.
Qed.

Lemma count_scan_finds (sub s : string) :
  0 < occurrences sub s -> 0 < count_scan sub s 0.
Proof.
  induction s as [|c s IH]; [simpl; lia|].
  cbn [count_scan occurrences].
  destruct (prefix sub (String c s)); [lia|]. simpl. exact IH.
Qed.

(** The counted occurrences do not overlap: they fit side by side in what
    is left of the text. *)
Lemma count_scan_fits (sub s : string) (skip : nat) :
  count_scan sub s skip * String.length sub <= String.length s - skip.
Proof.
  revert skip. induction s as [|c s IH]; intros skip; [simpl; lia|].
  cbn [count_scan]. destruct skip as [|skip].
  - destruct (prefix sub (String c s)) eqn:Hp.
    + apply prefix_length in Hp. specialize (IH (String.length sub - 1)).
      simpl in *. lia.
    + specialize (IH 0). simpl. lia.
  - specialize (IH skip). simpl. lia.
Qed.

Lemma append_empty (l1 l2 : string) :
  (l1 ++ l2)%string = EmptyString <-> l1 = EmptyString /\ l2 = EmptyString.
Proof.
  destruct l1; simpl; split.
  - intros ->. auto.
  - now intros [_ ->].
  - discriminate.
  - intros [H _]. discriminate.
Qed.

Lemma count_nonempty (s sub : string) :
  sub <> EmptyString -> count s sub = count_scan sub s 0.
Proof.
  destruct sub; [congruence | reflexivity].
Qed.

Lemma length_append (s1 s2 : string) :
  String.length (s1 ++ s2) = String.length s1 + String.length s2.
Proof.
  induction s1 as [|c s1 IH]; simpl; [reflexivity | now rewrite IH].
Qed.

(** ** The keys of the dictionary [variables] *)

Lemma NoDup_app_disjoint {A : Type} (l1 l2 : list A) (z : A) :
  NoDup (l1 ++ l2) -> In z l1 -> ~ In z l2.
Proof.
  induction l1 as [|a l1 IH]; intros Hnd Hz; [destruct Hz|].
  simpl in Hnd. apply NoDup_cons_iff in Hnd. destruct Hnd as [Ha Hnd].
  destruct Hz as [<- | Hz].
  - intros H. apply Ha. apply in_or_app. now right.
  - now apply IH.
Qed.

Lemma NoDup_flat_map {A B : Type} (f : A -> list B) (l : list A) :
  NoDup l ->
  (forall x, In x l -> NoDup (f x)) ->
  (forall x y z, In x l -> In y l -> In z (f x) -> In z (f y) -> x = y) ->
  NoDup (flat_map f l).
Proof.
  induction 1 as [|a l Ha Hnd IH]; intros Hin Hdis; simpl; [constructor|].
  apply NoDup_app.
  - apply Hin. now left.
  - apply IH.
    + intros x Hx. apply Hin. now right.
    + intros x y z Hx Hy. apply Hdis; now right.
  - intros z Hz Hz'. apply in_flat_map in Hz'. destruct Hz' as (y & Hy & Hzy).
    assert (a = y).
    { apply (Hdis a y z); [now left | now right | exact Hz | exact Hzy]. }
    subst y. contradiction.
Qed.

Lemma NoDup_flat_map_inv {A B : Type} (f : A -> list B) (l : list A) :
  NoDup (flat_map f l) -> (forall x, In x l -> f x <> []) -> NoDup l.
Proof.
  induction l as [|a l IH]; intros Hnd Hne; constructor.
  - intros Ha. simpl in Hnd.
    destruct (f a) as [|z t] eqn:Hfa; [now apply (Hne a (or_introl eq_refl))|].
    apply (NoDup_app_disjoint (z :: t) (flat_map f l) z Hnd); [now left|].
    apply in_flat_map. exists a. split; [exact Ha|]. rewrite Hfa. now left.
  - apply IH.
    + simpl in Hnd. now apply NoDup_app_remove_l in Hnd.
    + intros x Hx. apply Hne. now right.
Qed.

Section DistinctPairs.
Context {A : Type}.
Variable pool : list A.
Hypothesis Hpool : NoDup pool.

Lemma NoDup_enumerate : NoDup (enumerate pool).
Proof.
  apply (NoDup_map_inv fst). rewrite enumerate_keys. apply seq_NoDup.
Qed.

Lemma enumerate_value_inj (ix jy : nat * A) :
  In ix (enumerate pool) -> In jy (enumerate pool) -> snd ix = snd jy -> ix = jy.
Proof.
  destruct ix as [i x], jy as [j y]. simpl. intros Hi Hj <-.
  apply in_enumerate in Hi, Hj. f_equal.
  apply (proj1 (NoDup_nth_error pool) Hpool).
  - apply nth_error_Some. congruence.
  - congruence.
Qed.

Lemma NoDup_pairs_when (keep : nat -> nat -> bool) :
  NoDup (flat_map
           (fun ix : nat * A =>
              flat_map
                (fun jy : nat * A =>
                   if keep (fst ix) (fst jy) then [(snd ix, snd jy)] else [])
                (enumerate pool))
           (enumerate pool)).
Proof.
  apply NoDup_flat_map.
  - exact NoDup_enumerate.
  - intros ix Hix. apply NoDup_flat_map.
    + exact NoDup_enumerate.
    + intros jy _. destruct (keep (fst ix) (fst jy)); repeat constructor.
      intros [].
    + intros jy jy' z Hj Hj' Hz Hz'.
      destruct (keep (fst ix) (fst jy)); [|destruct Hz].
      destruct (keep (fst ix) (fst jy')); [|destruct Hz'].
      destruct Hz as [<- | []]. destruct Hz' as [Hz' | []].
      apply enumerate_value_inj; try assumption. now injection Hz'.
  - intros ix ix' z Hi Hi' Hz Hz'.
    apply in_flat_map in Hz, Hz'.
    destruct Hz as (jy & _ & Hz), Hz' as (jy' & _ & Hz').
    destruct (keep (fst ix) (fst jy)); [|destruct Hz].
    destruct (keep (fst ix') (fst jy')); [|destruct Hz'].
    destruct Hz as [<- | []]. destruct Hz' as [Hz' | []].
    apply enumerate_value_inj; try assumption. now injection Hz'.
Qed.

Lemma NoDup_permutations2 : NoDup (permutations2 pool).
Proof.
  unfold permutations2.
  rewrite flat_map_ext with
    (g := fun ix : nat * A =>
            flat_map
              (fun jy : nat * A =>
                 if negb (Nat.eqb (fst ix) (fst jy))
                 then [(snd ix, snd jy)] else [])
              (enumerate pool)).
  - apply (NoDup_pairs_when (fun i j => negb (Nat.eqb i j))).
  - intros ix. apply flat_map_ext. intros jy.
    now destruct (Nat.eqb (fst ix) (fst jy)).
Qed.

Lemma NoDup_combinations2 : NoDup (combinations2 pool).
Proof.
  apply (NoDup_pairs_when Nat.ltb).
Qed.
End DistinctPairs.

Lemma NoDup_assignment_vars (letters : list symbol) :
  NoDup letters -> NoDup (assignment_vars letters).
Proof.
  intros Hnd. unfold assignment_vars. apply NoDup_flat_map.
  - exact Hnd.
  - intros s _. rewrite letter_row.
    apply Finite.Injective_map_NoDup_in; [|apply seq_NoDup].
    intros k k' _ _ H. now injection H.
  - intros s s' z _ _ Hz Hz'. rewrite letter_row in Hz, Hz'.
    apply in_map_iff in Hz, Hz'.
    destruct Hz as (k & <- & _), Hz' as (k' & H & _). now injection H.
Qed.

Lemma NoDup_link_vars (letters : list symbol) :
  NoDup letters -> NoDup (link_vars letters).
Proof.
  intros Hnd. unfold link_vars. apply NoDup_flat_map.
  - now apply NoDup_permutations2.
  - intros [l1 l2] _.
    apply Finite.Injective_map_NoDup_in.
    + intros [k1 k2] [k1' k2'] _ _ H. simpl in H. now injection H as -> ->.
    + apply NoDup_combinations2. apply seq_NoDup.
  - intros [l1 l2] [l1' l2'] z _ _ Hz Hz'.
    apply in_map_iff in Hz, Hz'.
    destruct Hz as (kk & <- & _), Hz' as (kk' & H & _).
    simpl in H. now injection H as -> ->.
Qed.

Lemma NoDup_model_variables (letters : list symbol) :
  NoDup (assignment_vars letters ++ link_vars letters) <-> NoDup letters.
Proof.
  split.
  - intros H. apply NoDup_app_remove_r in H.
    apply (NoDup_flat_map_inv _ _ H).
    intros s Hs Hnil. destruct letters as [|a letters]; [destruct Hs|].
    discriminate.
  - intros Hnd. apply NoDup_app.
    + now apply NoDup_assignment_vars.
    + now apply NoDup_link_vars.
    + intros [s k | l1 l2 k1 k2] Hx Hx'.
      * exact (assignment_var_not_link letters s k Hx').
      * unfold assignment_vars in Hx. apply in_flat_map in Hx.
        destruct Hx as (s & _ & Hx). apply in_map_iff in Hx.
        destruct Hx as (kx & Hx & _). discriminate.
Qed.

Lemma in_enumerate_key {A : Type} (l : list A) (kx : nat * A) :
  In kx (enumerate l) -> fst kx < length l /\ In (snd kx) l.
Proof.
  destruct kx as [k x]. intros H. apply in_enumerate in H. simpl. split.
  - apply nth_error_Some. congruence.
  - eapply nth_error_In; eassumption.
Qed.

Lemma constraint_vars_created (letters : list symbol) (x : var) :
  In x (flat_map constraint_vars (model_constraints letters)) ->
  In x (assignment_vars letters ++ link_vars letters).
Proof.
  unfold model_constraints. rewrite !flat_map_app, !in_app_iff.
  intros [H | [H | H]]; apply in_flat_map in H; destruct H as (c & Hc & Hx).
  - left. unfold letter_constraints in Hc. apply in_map_iff in Hc.
    destruct Hc as (s & <- & Hs). simpl in Hx. apply in_map_iff in Hx.
    destruct Hx as (kx & <- & Hkx). apply in_assignment_vars.
    split; [exact Hs | now apply (in_enumerate_key letters kx)].
  - left. unfold key_constraints in Hc. apply in_map_iff in Hc.
    destruct Hc as (kx & <- & Hkx). simpl in Hx. apply in_map_iff in Hx.
    destruct Hx as (s & <- & Hs). apply in_assignment_vars.
    split; [exact Hs | now apply (in_enumerate_key letters kx)].
  - unfold link_constraints in Hc. apply in_flat_map in Hc.
    destruct Hc as ([l1 l2] & Hll & Hc). apply in_flat_map in Hc.
    destruct Hc as ([k1 k2] & Hkk & Hc). apply in_key_pairs in Hkk.
    destruct (in_permutations2_letters letters l1 l2 Hll) as [H1 H2].
    assert (HL : In (LVar l1 l2 k1 k2) (link_vars letters)).
    { apply in_link_vars. exists l1, l2, k1, k2. tauto. }
    assert (H1' : In (AVar l1 k1) (assignment_vars letters))
      by (apply in_assignment_vars; split; [exact H1 | lia]).
    assert (H2' : In (AVar l2 k2) (assignment_vars letters))
      by (apply in_assignment_vars; split; [exact H2 | lia]).
    destruct Hc as [<- | [<- | []]]; simpl in Hx;
      destruct Hx as [<- | [<- | [<- | []]]]; auto.
Qed.

Lemma created_vars_constrained (letters : list symbol) (x : var) :
  In x (assignment_vars letters ++ link_vars letters) ->
  In x (flat_map constraint_vars (model_constraints letters)).
Proof.
  unfold model_constraints. rewrite !flat_map_app, !in_app_iff.
  intros [H | H].
  - left. destruct x as [s k | l1 l2 k1 k2].
    + apply in_assignment_vars in H. destruct H as [Hs Hk].
      apply in_flat_map.
      exists (SumEq (map (AVar s) (range (length letters))) 1).
      split.
      * unfold letter_constraints. apply in_map_iff. exists s.
        now rewrite letter_row.
      * simpl. apply in_map. now apply in_range.
    + unfold assignment_vars in H. apply in_flat_map in H.
      destruct H as (s & _ & H). apply in_map_iff in H.
      destruct H as (kx & H & _). discriminate.
  - right. right. apply in_link_vars in H.
    destruct H as (l1 & l2 & k1 & k2 & -> & Hll & Hlt & Hn).
    apply in_flat_map.
    exists (BoolAnd [Pos (AVar l1 k1); Pos (AVar l2 k2)] (Pos (LVar l1 l2 k1 k2))).
    split; [|simpl; auto].
    unfold link_constraints. apply in_flat_map. exists (l1, l2).
    split; [exact Hll|]. apply in_flat_map. exists (k1, k2).
    split; [apply in_key_pairs; lia | simpl; auto].
Qed.

(** * The properties of the specification *)

Local Open Scope string_scope.

Lemma in_letters_pair (letters : list symbol) (s1 s2 : symbol) :
  In s1 letters -> In s2 letters -> s1 <> s2 -> In (s1, s2) (permutations2 letters).
Proof.
  intros H1 H2 Hne. apply in_permutations2.
  apply In_nth_error in H1, H2. destruct H1 as [i Hi], H2 as [j Hj].
  exists i, j. repeat split; try assumption.
  intros ->. congruence.
Qed.

(** C2.  In every valuation that satisfies the constraints of the built model,
    for distinct letters [s1], [s2] and keys [k1 < k2], the linearization
    variable of [(s1, s2, k1, k2)] is true exactly when the assignment
    variables of [(s1, k1)] and [(s2, k2)] are both true. *)
Theorem link_var_is_conjunction penalty2 letters input_text m v s1 s2 k1 k2 :
  build_model penalty2 letters input_text = Return m ->
  feasible m v = true ->
  In s1 letters -> In s2 letters -> s1 <> s2 ->
  k1 < k2 -> k2 < length letters ->
  (v (LVar s1 s2 k1 k2) = true
   <-> v (AVar s1 k1) = true /\ v (AVar s2 k2) = true).
Proof.
  intros Hm Hf H1 H2 Hne Hlt Hn.
  apply (feasible_spec _ _ _ _ v Hm) in Hf.
  rewrite (link_is_and _ _ Hf s1 s2 k1 k2 (in_letters_pair _ _ _ H1 H2 Hne) Hlt Hn).
  apply andb_true_iff.
Qed.

Lemma link_var_is_conjunction_witness :
  layout_valuation toy_letters (LVar "B" "C" 1 2) = true
  <-> layout_valuation toy_letters (AVar "B" 1) = true
      /\ layout_valuation toy_letters (AVar "C" 2) = true.
Proof.
  apply (link_var_is_conjunction toy_penalty toy_letters toy_text toy_model).
  - vm_compute. reflexivity.
  - vm_compute. reflexivity.
  - simpl. auto.
  - simpl. auto.
  - discriminate.
  - lia.
  - simpl. lia.
Defined.

(** C3.  When the solver keeps its contract and [optimize_keymap] returns an
    array, the array has length [N], every letter of the alphabet occurs in
    it exactly once, and every slot holds a letter: it is a rearrangement of
    the alphabet. *)
Theorem returned_layout_is_bijection (solve : solver) (penalty2 : list (list Z))
    (letters : list symbol) (input_text : string) arr :
  solver_sound solve ->
  optimize_keymap solve penalty2 letters input_text = Return (Some arr) ->
  length arr = length letters /\
  (forall s, In s letters -> count_occ slot_eq_dec arr (Some s) = 1) /\
  (forall k, k < length letters ->
     exists s, In s letters /\ nth_error arr k = Some (Some s)) /\
  Permutation arr (map Some letters).
Proof.
  intros Hsound H.
  apply optimize_keymap_Some in H. destruct H as (m & Hm & Hst & ->).
  pose proof (Hsound m Hst) as Hf.
  apply (feasible_spec _ _ _ _ _ Hm) in Hf.
  repeat split.
  - now rewrite length_map, length_range.
  - intros s Hs. now apply decoded_count.
  - intros k Hk.
    destruct (slot_filled letters _ Hf k Hk) as (s & Hs & Hin & _).
    exists s. split; [exact Hin|].
    rewrite nth_error_map, nth_error_range.
    destruct (Nat.ltb_spec k (length letters)); [|lia].
    simpl. now rewrite Hs.
  - now apply decoded_Permutation.
Qed.

Lemma returned_layout_is_bijection_witness :
  length [Some "B"; Some "A"; Some "C"] = length toy_letters /\
  (forall s, In s toy_letters ->
     count_occ slot_eq_dec [Some "B"; Some "A"; Some "C"] (Some s) = 1) /\
  (forall k, k < length toy_letters ->
     exists s, In s toy_letters
               /\ nth_error [Some "B"; Some "A"; Some "C"] k = Some (Some s)) /\
  Permutation [Some "B"; Some "A"; Some "C"] (map Some toy_letters).
Proof.
  apply (returned_layout_is_bijection
           (checking_solver (layout_valuation ["B"; "A"; "C"]))
           toy_penalty toy_letters toy_text).
  - apply checking_solver_sound.
  - vm_compute. reflexivity.
Defined.

(** C5.  Once the model is built, [optimize_keymap] returns [None] exactly
    when the solver status is neither OPTIMAL nor FEASIBLE.  With one of
    these two statuses it returns an array of length [N] read off the solved
    assignment variables: slot [k] holds the last letter of the alphabet
    whose assignment variable on key [k] is solved true, and [None] when no
    letter has its variable true there.  With any other status the answer is
    [None] whatever values the solver holds: nothing is decoded. *)
Theorem none_iff_not_solved (solve : solver) (penalty2 : list (list Z))
    (letters : list symbol) (input_text : string) m :
  build_model penalty2 letters input_text = Return m ->
  (optimize_keymap solve penalty2 letters input_text = Return None
   <-> fst (solve m) <> OPTIMAL /\ fst (solve m) <> FEASIBLE) /\
  (fst (solve m) = OPTIMAL \/ fst (solve m) = FEASIBLE ->
   exists arr,
     optimize_keymap solve penalty2 letters input_text = Return (Some arr) /\
     length arr = length letters /\
     (forall k s,
        nth_error arr k = Some (Some s) <->
        k < length letters /\
        exists pre post,
          letters = (pre ++ s :: post)%list /\
          snd (solve m) (AVar s k) = true /\
          forall x, In x post -> snd (solve m) (AVar x k) = false) /\
     (forall k,
        nth_error arr k = Some None <->
        k < length letters /\
        forall s, In s letters -> snd (solve m) (AVar s k) = false)) /\
  (fst (solve m) <> OPTIMAL /\ fst (solve m) <> FEASIBLE ->
   forall v',
     optimize_keymap (constant_solver (fst (solve m)) v') penalty2 letters input_text
     = Return None).
Proof.
  intros Hm. split; [|split].
  - rewrite (optimize_keymap_built solve _ _ _ m Hm), <- solved_spec.
    destruct (solved (fst (solve m))); split; intros H;
      try reflexivity; discriminate.
  - intros Hst.
    exists (map (slot (snd (solve m)) letters) (range (length letters))).
    split; [|split; [|split]].
    + rewrite (optimize_keymap_built solve _ _ _ m Hm).
      destruct Hst as [-> | ->]; reflexivity.
    + now rewrite length_map, length_range.
    + intros k s. rewrite nth_error_map, nth_error_range.
      destruct (Nat.ltb_spec k (length letters)) as [Hk | Hk]; simpl.
      * rewrite <- slot_last. split.
        -- intros H. injection H as H. split; [exact Hk | exact H].
        -- intros [_ H]. now rewrite H.
      * split; [discriminate | lia].
    + intros k. rewrite nth_error_map, nth_error_range.
      destruct (Nat.ltb_spec k (length letters)) as [Hk | Hk]; simpl.
      * rewrite <- slot_None. split.
        -- intros H. injection H as H. split; [exact Hk | exact H].
        -- intros [_ H]. now rewrite H.
      * split; [discriminate | lia].
  - intros Hst v'. rewrite (optimize_keymap_built _ _ _ _ m Hm).
    unfold constant_solver. simpl.
    apply solved_spec in Hst. now rewrite Hst.
Qed.

Lemma none_iff_not_solved_witness :
  (optimize_keymap (constant_solver INFEASIBLE (layout_valuation toy_letters))
     toy_penalty toy_letters toy_text = Return None
   <-> INFEASIBLE <> OPTIMAL /\ INFEASIBLE <> FEASIBLE) /\
  (exists arr,
     optimize_keymap (constant_solver FEASIBLE (layout_valuation ["C"; "A"; "B"]))
       toy_penalty toy_letters toy_text = Return (Some arr) /\
     length arr = length toy_letters /\
     (forall k s,
        nth_error arr k = Some (Some s) <->
        k < length toy_letters /\
        exists pre post,
          toy_letters = (pre ++ s :: post)%list /\
          layout_valuation ["C"; "A"; "B"] (AVar s k) = true /\
          forall x, In x post ->
            layout_valuation ["C"; "A"; "B"] (AVar x k) = false) /\
     (forall k,
        nth_error arr k = Some None <->
        k < length toy_letters /\
        forall s, In s toy_letters ->
          layout_valuation ["C"; "A"; "B"] (AVar s k) = false)) /\
  optimize_keymap (constant_solver FEASIBLE (layout_valuation ["C"; "A"; "B"]))
    toy_penalty toy_letters toy_text
  = Return (Some [Some "C"; Some "A"; Some "B"]).
Proof.
  split; [|split].
  - apply (none_iff_not_solved
             (constant_solver INFEASIBLE (layout_valuation toy_letters))
             toy_penalty toy_letters toy_text toy_model).
    vm_compute. reflexivity.
  - destruct (none_iff_not_solved
                (constant_solver FEASIBLE (layout_valuation ["C"; "A"; "B"]))
                toy_penalty toy_letters toy_text toy_model)
      as (_ & H & _); [vm_compute; reflexivity|].
    exact (H (or_intror eq_refl)).
  - vm_compute. reflexivity.
Defined.

(** C7, as the code has it.  If the solver reports OPTIMAL or FEASIBLE and on
    some key no letter's assignment variable is solved true, the decoder
    leaves that slot at [None] and the array with the empty slot is returned
    as the result of the call. *)
Theorem unfilled_slot_is_returned (solve : solver) (penalty2 : list (list Z))
    (letters : list symbol) (input_text : string) m k :
  build_model penalty2 letters input_text = Return m ->
  solved (fst (solve m)) = true ->
  k < length letters ->
  (forall s, In s letters -> snd (solve m) (AVar s k) = false) ->
  exists arr,
    optimize_keymap solve penalty2 letters input_text = Return (Some arr) /\
    length arr = length letters /\
    nth_error arr k = Some None.
Proof.
  intros Hm Hst Hk Hnone.
  exists (map (slot (snd (solve m)) letters) (range (length letters))).
  split; [|split].
  - rewrite (optimize_keymap_built solve _ _ _ m Hm). now rewrite Hst.
  - now rewrite length_map, length_range.
  - rewrite nth_error_map, nth_error_range.
    destruct (Nat.ltb_spec k (length letters)); [|lia].
    simpl. f_equal. now apply slot_None.
Qed.

Lemma unfilled_slot_is_returned_witness :
  exists arr,
    optimize_keymap (constant_solver OPTIMAL (layout_valuation ["C"; "B"]))
      toy_penalty toy_letters toy_text = Return (Some arr) /\
    length arr = length toy_letters /\
    nth_error arr 2 = Some None.
Proof.
  apply (unfilled_slot_is_returned
           (constant_solver OPTIMAL (layout_valuation ["C"; "B"]))
           toy_penalty toy_letters toy_text toy_model 2).
  - vm_compute. reflexivity.
  - reflexivity.
  - simpl. lia.
  - intros s Hs. reflexivity.
Defined.

(** C7 as the specification states it fails: the solver says OPTIMAL, no
    letter is solved onto key 2, and the call returns the array with the
    empty slot as an ordinary result. *)
Lemma decode_gap_is_not_surfaced :
  solved (fst (constant_solver OPTIMAL (layout_valuation ["C"; "B"]) toy_model))
  = true /\
  (forall s, In s toy_letters ->
     snd (constant_solver OPTIMAL (layout_valuation ["C"; "B"]) toy_model)
         (AVar s 2) = false) /\
  optimize_keymap (constant_solver OPTIMAL (layout_valuation ["C"; "B"]))
    toy_penalty toy_letters toy_text
  = Return (Some [Some "C"; Some "B"; None]).
Proof.
  split; [reflexivity|]. split; [intros s _; reflexivity|].
  vm_compute. reflexivity.
Qed.

(** C10.  The keys are [range(len(letters))]: there are as many keys as
    letters, the assignment variables of the built model are those of the
    pairs of a letter and a key below [N], and in every valuation that
    satisfies the constraints every letter is on exactly one key and every
    key carries exactly one letter. *)
Theorem keys_match_letters penalty2 letters input_text m :
  build_model penalty2 letters input_text = Return m ->
  key_positions letters = range (length letters) /\
  length (key_positions letters) = length letters /\
  (forall s k, In (AVar s k) (variables m) <-> In s letters /\ k < length letters) /\
  forall v, feasible m v = true ->
    (forall s, In s letters ->
       exists! k, k < length letters /\ v (AVar s k) = true) /\
    (forall k, k < length letters ->
       exists! s, In s letters /\ v (AVar s k) = true).
Proof.
  intros Hm. split; [|split; [|split]].
  - apply enumerate_keys.
  - unfold key_positions. now rewrite enumerate_keys, length_range.
  - intros s k. apply build_model_with_Return in Hm.
    destruct Hm as (terms & _ & ->). simpl. rewrite in_app_iff.
    rewrite in_assignment_vars. pose proof (assignment_var_not_link letters s k).
    tauto.
  - intros v Hf. apply (feasible_spec _ _ _ _ v Hm) in Hf. split.
    + intros s Hs. destruct (letter_has_key letters v Hf s Hs) as (k & Hk & Hv).
      exists k. split; [now split|].
      intros k' [Hk' Hv'].
      exact (letter_key_unique letters v Hf s k k' Hs Hk Hk' Hv Hv').
    + intros k Hk. destruct (key_has_letter letters v Hf k Hk) as (s & Hs & Hv).
      exists s. split; [now split|].
      intros s' [Hs' Hv'].
      exact (key_letter_unique letters v Hf k s s' Hs Hs' Hk Hv Hv').
Qed.

Lemma keys_match_letters_witness :
  key_positions toy_letters = range (length toy_letters) /\
  length (key_positions toy_letters) = length toy_letters /\
  (forall s k, In (AVar s k) (variables toy_model)
               <-> In s toy_letters /\ k < length toy_letters) /\
  forall v, feasible toy_model v = true ->
    (forall s, In s toy_letters ->
       exists! k, k < length toy_letters /\ v (AVar s k) = true) /\
    (forall k, k < length toy_letters ->
       exists! s, In s toy_letters /\ v (AVar s k) = true).
Proof.
  apply (keys_match_letters toy_penalty toy_letters toy_text toy_model).
  vm_compute. reflexivity.
Defined.

(** C4.  For two different characters [c1] and [c2] the frequency that
    enters the objective, [input_text.count(c1 + c2)], is the number of
    positions of the corpus at which [c1] is immediately followed by [c2],
    overlapping occurrences counted one by one. *)
Theorem frequency_counts_bigrams (input_text : string) (c1 c2 : ascii) :
  c1 <> c2 ->
  frequency input_text (char c1) (char c2)
  = Z.of_nat (occurrences (bigram c1 c2) input_text).
Proof.
  intros Hne. unfold frequency, char. simpl append. f_equal.
  exact (count_scan_bigram c1 c2 input_text Hne).
Qed.

Lemma frequency_counts_bigrams_witness :
  frequency "ABCAB" (char "A") (char "B")
  = Z.of_nat (occurrences (bigram "A" "B") "ABCAB").
Proof.
  apply (frequency_counts_bigrams "ABCAB" "A" "B"). discriminate.
Defined.

(** C6, as the code has it.  In the corpus [ABABAB] the pair (A, B) occurs
    three times and the pair (B, A) twice. *)
Theorem toy_frequencies :
  frequency toy_text "A" "B" = 3%Z /\ frequency toy_text "B" "A" = 2%Z.
Proof.
  split; reflexivity.
Qed.

(** C6 as the specification states it fails: the frequency of (A, B) in
    [ABABAB] is not 2. *)
Lemma toy_frequency_AB_is_not_2 :
  ~ (frequency "ABABAB" "A" "B" = 2%Z /\ frequency "ABABAB" "B" "A" = 2%Z).
Proof.
  intros [H _]. vm_compute in H. discriminate.
Qed.

(** C9, as the code has it.  For a matrix of integer penalties, when the
    model and the model of the frequencies multiplied by the same constant
    [c > 0] are both built, every coefficient of the objective is multiplied
    by [c] and the variables and the constraints are the same: the objective
    value of every valuation is multiplied by [c], and the valuations that
    minimize the objective are the same.  Coefficients that fit the 64-bit
    integers of the solver after the scaling fit them before. *)
Theorem frequency_scaling (c : Z) (freq : symbol -> symbol -> Z)
    (penalty2 : list (list Z)) (letters : list symbol) (m m' : model) :
  (0 < c)%Z ->
  build_model_with freq penalty2 letters = Return m ->
  build_model_with (scaled c freq) penalty2 letters = Return m' ->
  obj_expr m' = obj_expr m /\
  obj_coef m' = map (Z.mul c) (obj_coef m) /\
  constraints m' = constraints m /\
  (forall v, objective_value m' v = (c * objective_value m v)%Z) /\
  (forall v, optimal m' v <-> optimal m v) /\
  (Forall int64 (obj_coef m') -> Forall int64 (obj_coef m)).
Proof.
  intros Hc Hm Hm'.
  destruct (scaled_model c freq penalty2 letters m Hc Hm)
    as (m0 & Hm0 & Hexpr & Hcoef & Hcons & Hval & Hopt).
  assert (m0 = m') by congruence. subst m0.
  repeat (split; [assumption|]).
  rewrite Hcoef, Forall_map. apply Forall_impl.
  intros z Hz. unfold int64 in *. nia.
Qed.

Lemma frequency_scaling_witness :
  obj_expr toy_model_doubled = obj_expr toy_model /\
  obj_coef toy_model_doubled = map (Z.mul 2) (obj_coef toy_model) /\
  constraints toy_model_doubled = constraints toy_model /\
  (forall v, objective_value toy_model_doubled v
             = (2 * objective_value toy_model v)%Z) /\
  (forall v, optimal toy_model_doubled v <-> optimal toy_model v) /\
  (Forall int64 (obj_coef toy_model_doubled) -> Forall int64 (obj_coef toy_model)).
Proof.
  apply (frequency_scaling 2 (frequency toy_text) toy_penalty toy_letters
           toy_model toy_model_doubled).
  - lia.
  - vm_compute. reflexivity.
  - vm_compute. reflexivity.
Defined.

(** C9 as the specification states it fails on the matrix the script passes.
    With the binary64 penalty 0.581 of [penalty_2gram] and a corpus in which
    A is followed by B seven times, multiplying the frequencies by 3 does not
    multiply the coefficients by 3: [21 * 0.581] and [3 * (7 * 0.581)] are
    different numbers.  With the penalties 0.036 and 0.054, the coefficient
    [9 * 0.036] is below [6 * 0.054], while after multiplying the counts by 3
    the two coefficients are equal. *)
Lemma scaling_fails_on_float_penalties :
  (exists terms terms',
     objective_terms_float (frequency corpus_AB7) penalty_QW two_letters
     = Return terms /\
     objective_terms_float (scaled 3 (frequency corpus_AB7)) penalty_QW two_letters
     = Return terms' /\
     map fst terms' = map fst terms /\
     map snd terms' <> map (PrimFloat.mul 3%float) (map snd terms)) /\
  PrimFloat.ltb (float_coefficient 9 penalty_UI) (float_coefficient 6 penalty_HK)
  = true /\
  PrimFloat.eqb (float_coefficient (3 * 9) penalty_UI)
                (float_coefficient (3 * 6) penalty_HK)
  = true.
Proof.
  split; [|split; vm_compute; reflexivity].
  eexists. eexists.
  split; [vm_compute; reflexivity|].
  split; [vm_compute; reflexivity|].
  split; [reflexivity|].
  intros H.
  apply (f_equal (fun l : list float =>
                    match l with
                    | x :: _ => PrimFloat.eqb x (float_coefficient 21 (0x1.2978d4fdf3b64p-1)%float)
                    | [] => false
                    end)) in H.
  vm_compute in H. discriminate.
Qed.

(** C8.  With the empty corpus and an alphabet of distinct letters, the
    frequency of every ordered pair of different letters is 0, every
    coefficient of the objective is 0, the objective value of every valuation
    is 0, every valuation that satisfies the constraints is optimal, and every
    rearrangement of the alphabet is the decoded array of an optimal
    valuation.  The extraction is a total function: [frequency] has no
    failing case. *)
Theorem empty_corpus_all_optimal (penalty2 : list (list Z))
    (letters : list symbol) (m : model) :
  NoDup letters ->
  build_model penalty2 letters EmptyString = Return m ->
  (forall l1 l2, l1 <> l2 -> frequency EmptyString l1 l2 = 0%Z) /\
  (forall c, In c (obj_coef m) -> c = 0%Z) /\
  (forall v, objective_value m v = 0%Z) /\
  (forall v, feasible m v = true -> optimal m v) /\
  (forall arr, Permutation arr letters ->
     optimal m (layout_valuation arr) /\
     objective_value m (layout_valuation arr) = 0%Z /\
     decode (layout_valuation arr) letters = Return (map Some arr)).
Proof.
  intros Hnd Hm.
  assert (Hzero : forall v, objective_value m v = 0%Z).
  { intros v. rewrite (objective_value_built _ _ _ _ v Hm).
    rewrite map_ext_in with (g := fun _ => 0%Z).
    - rewrite sumZ_map_const. lia.
    - intros t Ht. rewrite (empty_corpus_terms penalty2 letters t Hnd Ht). lia. }
  assert (Hopt : forall v, feasible m v = true -> optimal m v).
  { intros v Hf. split; [exact Hf|]. intros v' _. rewrite !Hzero. lia. }
  split; [|split; [|split; [|split]]].
  - exact frequency_empty_corpus.
  - intros c Hc. pose proof Hm as Hm0. apply build_model_with_Return in Hm0.
    destruct Hm0 as (terms & Ht & ->). simpl in Hc.
    rewrite (objective_terms_Return _ _ _ _ Ht) in Hc.
    apply in_map_iff in Hc. destruct Hc as (t & <- & Hin).
    exact (empty_corpus_terms penalty2 letters t Hnd Hin).
  - exact Hzero.
  - exact Hopt.
  - intros arr Hperm. split; [|split].
    + apply Hopt. apply (feasible_spec _ _ _ _ _ Hm).
      now apply layout_assignment_ok.
    + apply Hzero.
    + now apply layout_decode.
Qed.

Lemma toy_letters_NoDup : NoDup toy_letters.
Proof.
  unfold toy_letters. repeat constructor; simpl; intuition discriminate.
Qed.

Lemma empty_corpus_all_optimal_witness :
  (forall l1 l2, l1 <> l2 -> frequency EmptyString l1 l2 = 0%Z) /\
  (forall c, In c (obj_coef toy_model_empty_corpus) -> c = 0%Z) /\
  (forall v, objective_value toy_model_empty_corpus v = 0%Z) /\
  (forall v, feasible toy_model_empty_corpus v = true ->
     optimal toy_model_empty_corpus v) /\
  (forall arr, Permutation arr toy_letters ->
     optimal toy_model_empty_corpus (layout_valuation arr) /\
     objective_value toy_model_empty_corpus (layout_valuation arr) = 0%Z /\
     decode (layout_valuation arr) toy_letters = Return (map Some arr)).
Proof.
  apply (empty_corpus_all_optimal toy_penalty toy_letters toy_model_empty_corpus).
  - exact toy_letters_NoDup.
  - vm_compute. reflexivity.
Defined.

(** C1 on the code.  Two letters, the corpus [BA], penalty 5 from key 0 to
    key 1 and 7 from key 1 to key 0.  The valuation that puts A on key 0 and
    B on key 1 satisfies the constraints and minimizes the objective; its
    objective value is 0, while typing [BA] on the decoded array costs
    [penalty2[1][0] = 7]: the pair (B, A), typed from the higher key to the
    lower one, has no term in the objective.  The other layout, B on key 0
    and A on key 1, costs 5 to type and has objective value 5. *)
Theorem objective_misses_backward_pairs :
  build_model two_penalty two_letters "BA" = Return two_model /\
  optimize_keymap (checking_solver (layout_valuation ["A"; "B"]))
    two_penalty two_letters "BA" = Return (Some [Some "A"; Some "B"]) /\
  optimal two_model (layout_valuation ["A"; "B"]) /\
  objective_value two_model (layout_valuation ["A"; "B"]) = 0%Z /\
  typing_cost two_penalty two_letters "BA" [Some "A"; Some "B"] = 7%Z /\
  feasible two_model (layout_valuation ["B"; "A"]) = true /\
  objective_value two_model (layout_valuation ["B"; "A"]) = 5%Z /\
  typing_cost two_penalty two_letters "BA" [Some "B"; Some "A"] = 5%Z.
Proof.
  split; [vm_compute; reflexivity|].
  split; [vm_compute; reflexivity|].
  split; [|repeat split; vm_compute; reflexivity].
  split; [vm_compute; reflexivity|].
  intros v' _.
  change (objective_value two_model (layout_valuation ["A"; "B"])) with 0%Z.
  unfold objective_value, two_model. cbn -[Z.mul Z.add Value].
  unfold Value.
  destruct (v' (LVar "A" "B" 0 1)), (v' (LVar "B" "A" 0 1)); cbn; lia.
Qed.

(** ** The optimum and the search over all layouts *)

Section Rearrangements.
Context {A : Type}.

Lemma in_insert_everywhere (a : A) (pre post : list A) :
  In (pre ++ a :: post)%list (insert_everywhere a (pre ++ post)).
Proof.
  induction pre as [|x pre IH]; simpl.
  - destruct post; simpl; auto.
  - right. apply in_map. exact IH.
Qed.

Lemma insert_everywhere_Permutation (a : A) (l l' : list A) :
  In l' (insert_everywhere a l) -> Permutation l' (a :: l).
Proof.
  revert l'. induction l as [|x l IH]; intros l' H; simpl in H.
  - destruct H as [<- | []]. apply Permutation_refl.
  - destruct H as [<- | H]; [apply Permutation_refl|].
    apply in_map_iff in H. destruct H as (t & <- & Ht).
    apply IH in Ht. apply (perm_trans (l' := x :: a :: l)).
    + now apply perm_skip.
    + apply perm_swap.
Qed.

Lemma all_layouts_complete (l arr : list A) :
  Permutation arr l -> In arr (all_layouts l).
Proof.
  revert arr. induction l as [|a l IH]; intros arr Hperm.
  - apply Permutation_sym, Permutation_nil in Hperm. subst. now left.
  - assert (Ha : In a arr).
    { apply (Permutation_in a (Permutation_sym Hperm)). now left. }
    apply in_split in Ha. destruct Ha as (pre & post & ->).
    simpl. apply in_flat_map. exists (pre ++ post)%list. split.
    + apply IH. apply Permutation_sym in Hperm.
      apply Permutation_cons_app_inv in Hperm. now apply Permutation_sym.
    + apply in_insert_everywhere.
Qed.

Lemma all_layouts_sound (l arr : list A) :
  In arr (all_layouts l) -> Permutation arr l.
Proof.
  revert arr. induction l as [|a l IH]; intros arr H; simpl in H.
  - destruct H as [<- | []]. apply Permutation_refl.
  - apply in_flat_map in H. destruct H as (t & Ht & H).
    apply insert_everywhere_Permutation in H. apply IH in Ht.
    apply (perm_trans H). now apply perm_skip.
Qed.

Lemma least_in_list (f : A -> Z) (l : list A) :
  l <> [] -> exists x, In x l /\ forall y, In y l -> (f x <= f y)%Z.
Proof.
  induction l as [|a l IH]; intros Hne; [congruence|].
  destruct l as [|b l].
  - exists a. split; [now left|]. intros y [<- | []]. lia.
  - destruct IH as (x & Hx & Hmin); [discriminate|].
    destruct (Z.le_gt_cases (f a) (f x)) as [Hle | Hgt].
    + exists a. split; [now left|]. intros y [<- | Hy]; [lia|].
      specialize (Hmin y Hy). lia.
    + exists x. split; [now right|]. intros y [<- | Hy]; [lia|].
      now apply Hmin.
Qed.
End Rearrangements.

(** The objective value of the valuation of a layout, read off the layout. *)
Lemma layout_objective (penalty2 : list (list Z)) (letters : list symbol)
    (input_text : string) (m : model) (arr : list symbol) :
  NoDup letters -> Permutation arr letters ->
  build_model penalty2 letters input_text = Return m ->
  objective_value m (layout_valuation arr)
  = one_way_cost penalty2 letters input_text (map Some arr).
Proof.
  intros Hnd Hperm Hm.
  rewrite (objective_value_one_way penalty2 letters input_text m _ Hm).
  - pose proof (layout_decode letters arr Hnd Hperm) as Hd.
    rewrite decode_spec in Hd. injection Hd as ->. reflexivity.
  - apply (feasible_spec _ _ _ _ _ Hm). now apply layout_assignment_ok.
Qed.

Lemma sumZ_nonneg {A : Type} (g : A -> Z) (l : list A) :
  (forall x, In x l -> (0 <= g x)%Z) -> (0 <= sumZ (map g l))%Z.
Proof.
  induction l as [|a l IH]; intros H; cbn [map sumZ]; [lia|].
  pose proof (H a (or_introl eq_refl)).
  specialize (IH (fun x Hx => H x (or_intror Hx))). lia.
Qed.

Lemma frequency_nonneg (input_text : string) (l1 l2 : symbol) :
  (0 <= frequency input_text l1 l2)%Z.
Proof.
  unfold frequency. lia.
Qed.

Lemma slot_ext (v v' : valuation) (letters : list symbol) (k : nat) :
  (forall s, In s letters -> v (AVar s k) = v' (AVar s k)) ->
  slot v letters k = slot v' letters k.
Proof.
  unfold slot. generalize (@None symbol).
  induction letters as [|a l IH]; intros acc H; simpl; [reflexivity|].
  rewrite (H a (or_introl eq_refl)). apply IH.
  intros s Hs. apply H. now right.
Qed.

(** * Further properties of the program *)

(** X1.  The built model has [N * N] assignment variables followed by
    [N (N - 1) * N (N - 1) / 2] linearization variables, [2 N] counting
    constraints followed by two enforced constraints for every linearization
    variable, and an objective whose variables are the linearization
    variables, one coefficient each, in the order of their creation. *)
Theorem model_size (penalty2 : list (list Z)) (letters : list symbol)
    (input_text : string) (m : model) :
  build_model penalty2 letters input_text = Return m ->
  variables m = (assignment_vars letters ++ link_vars letters)%list /\
  length (assignment_vars letters) = length letters * length letters /\
  2 * length (link_vars letters)
  = (length letters * (length letters - 1))
    * (length letters * (length letters - 1)) /\
  length (constraints m)
  = 2 * length letters + 2 * length (link_vars letters) /\
  obj_expr m = link_vars letters /\
  length (obj_coef m) = length (link_vars letters).
Proof.
  intros Hm. apply build_model_with_Return in Hm.
  destruct Hm as (terms & Ht & ->). simpl.
  rewrite (objective_terms_Return _ _ _ _ Ht).
  split; [reflexivity|].
  split; [apply length_assignment_vars|].
  split; [apply length_link_vars|].
  split; [|split].
  - unfold model_constraints, letter_constraints, key_constraints.
    rewrite !length_app, !length_map, length_enumerate, length_link_constraints.
    lia.
  - apply objective_terms_vars.
  - rewrite length_map, <- (objective_terms_vars (frequency input_text) penalty2).
    now rewrite length_map.
Qed.

Lemma model_size_witness :
  variables toy_model = (assignment_vars toy_letters ++ link_vars toy_letters)%list /\
  length (assignment_vars toy_letters) = length toy_letters * length toy_letters /\
  2 * length (link_vars toy_letters)
  = (length toy_letters * (length toy_letters - 1))
    * (length toy_letters * (length toy_letters - 1)) /\
  length (constraints toy_model)
  = 2 * length toy_letters + 2 * length (link_vars toy_letters) /\
  obj_expr toy_model = link_vars toy_letters /\
  length (obj_coef toy_model) = length (link_vars toy_letters).
Proof.
  apply (model_size toy_penalty toy_letters toy_text toy_model).
  vm_compute. reflexivity.
Defined.

(** X2.  The model depends on the corpus only through the counts of the
    pairs of letters at two places of the alphabet, and on the penalty
    matrix only through the entries above the diagonal ([k1 < k2 < N]): two
    calls that agree on these build the same model and give the same
    answer.  The diagonal, the entries below it and every row from [N - 1] on
    are never read. *)
Theorem model_reads_pairs_and_upper_triangle (solve : solver)
    (penalty2 penalty2' : list (list Z)) (letters : list symbol)
    (input_text input_text' : string) :
  (forall l1 l2, In (l1, l2) (permutations2 letters) ->
     frequency input_text l1 l2 = frequency input_text' l1 l2) ->
  (forall k1 k2, k1 < k2 -> k2 < length letters ->
     penalty_at penalty2 k1 k2 = penalty_at penalty2' k1 k2) ->
  build_model penalty2 letters input_text
  = build_model penalty2' letters input_text' /\
  optimize_keymap solve penalty2 letters input_text
  = optimize_keymap solve penalty2' letters input_text'.
Proof.
  intros Hf Hp.
  assert (Hb : build_model penalty2 letters input_text
               = build_model penalty2' letters input_text').
  { unfold build_model, build_model_with.
    now rewrite (objective_terms_ext _ (frequency input_text')
                   penalty2 penalty2' letters Hf Hp). }
  split; [exact Hb|]. unfold optimize_keymap. now rewrite Hb.
Qed.

Lemma model_reads_pairs_and_upper_triangle_witness :
  build_model toy_penalty toy_letters toy_text
  = build_model [[0; 1; 9]; [5; 5; 9]]%Z toy_letters "ABxBAyABzBAwAB" /\
  optimize_keymap (checking_solver (layout_valuation toy_letters))
    toy_penalty toy_letters toy_text
  = optimize_keymap (checking_solver (layout_valuation toy_letters))
      [[0; 1; 9]; [5; 5; 9]]%Z toy_letters "ABxBAyABzBAwAB".
Proof.
  apply (model_reads_pairs_and_upper_triangle
           (checking_solver (layout_valuation toy_letters))
           toy_penalty [[0; 1; 9]; [5; 5; 9]]%Z toy_letters
           toy_text "ABxBAyABzBAwAB").
  - intros l1 l2 H. vm_compute in H.
    repeat (destruct H as [H | H]; [injection H as <- <-; reflexivity|]).
    destruct H.
  - intros k1 k2 H1 H2. simpl in H2.
    destruct k2 as [|[|[|k2]]]; destruct k1 as [|[|k1]];
      try lia; reflexivity.
Defined.

(** X3.  The call raises [IndexError] exactly when the penalty matrix has no
    entry [k1][k2] for some pair of keys [k1 < k2 < N]: the subscripts of
    line 60 are evaluated before the solver is called, so neither the solver
    nor the corpus has a part in it.  With fewer than two letters the matrix
    is not read and no [IndexError] is raised. *)
Theorem raises_iff_matrix_too_small (solve : solver) (penalty2 : list (list Z))
    (letters : list symbol) (input_text : string) :
  (optimize_keymap solve penalty2 letters input_text = Raise IndexError
   <-> exists k1 k2, k1 < k2 /\ k2 < length letters /\
         (length penalty2 <= k1 \/ length (nth k1 penalty2 []) <= k2)) /\
  (optimize_keymap solve penalty2 letters input_text = Raise IndexError
   <-> exists k1, S k1 < length letters /\
         (length penalty2 <= k1 \/ length (nth k1 penalty2 []) < length letters)) /\
  (length letters < 2 ->
   optimize_keymap solve penalty2 letters input_text <> Raise IndexError).
Proof.
  assert (HA : optimize_keymap solve penalty2 letters input_text = Raise IndexError
               <-> exists k1 k2, k1 < k2 /\ k2 < length letters /\
                     (length penalty2 <= k1 \/ length (nth k1 penalty2 []) <= k2)).
  { rewrite optimize_keymap_Raise. unfold build_model.
    rewrite build_model_with_Raise. apply objective_terms_Raise. }
  split; [exact HA|]. split.
  - rewrite HA. split.
    + intros (k1 & k2 & Hlt & Hn & Hlen). exists k1. split; [lia|].
      destruct Hlen as [Hlen | Hlen]; [now left | right; lia].
    + intros (k1 & Hk1 & Hlen).
      destruct Hlen as [Hlen | Hlen].
      * exists k1, (S k1). split; [lia|]. split; [lia|]. now left.
      * exists k1, (length letters - 1). split; [lia|]. split; [lia|].
        right. lia.
  - intros Hsmall H. apply HA in H.
    destruct H as (k1 & k2 & Hlt & Hn & _). lia.
Qed.

(** X4.  On every valuation, feasible or not, the decoder raises nothing and
    returns an array of length [N].  Slot [k] holds the last letter of
    [letters] whose assignment variable on key [k] is true (a later letter
    overwrites an earlier one on the same key), and [None] when no letter
    has its variable true there. *)
Theorem decode_last_letter_wins (v : valuation) (letters : list symbol) :
  exists arr,
    decode v letters = Return arr /\
    length arr = length letters /\
    (forall k s,
       nth_error arr k = Some (Some s) <->
       k < length letters /\
       exists pre post, letters = (pre ++ s :: post)%list /\
                        v (AVar s k) = true /\
                        forall x, In x post -> v (AVar x k) = false) /\
    (forall k,
       nth_error arr k = Some None <->
       k < length letters /\ forall s, In s letters -> v (AVar s k) = false).
Proof.
  exists (map (slot v letters) (range (length letters))).
  split; [apply decode_spec|].
  split; [now rewrite length_map, length_range|].
  split.
  - intros k s. rewrite nth_error_map, nth_error_range.
    destruct (Nat.ltb_spec k (length letters)) as [Hk | Hk]; simpl.
    + rewrite <- slot_last. split.
      * intros H. injection H as H. auto.
      * intros [_ H]. now rewrite H.
    + split; [discriminate | lia].
  - intros k. rewrite nth_error_map, nth_error_range.
    destruct (Nat.ltb_spec k (length letters)) as [Hk | Hk]; simpl.
    + rewrite <- slot_None. split.
      * intros H. injection H as H. auto.
      * intros [_ H]. now rewrite H.
    + split; [discriminate | lia].
Qed.

(** X5.  Round trip.  For an alphabet of distinct letters and every
    rearrangement [arr] of it, whatever the corpus and the penalties, the
    valuation that places the letters as [arr] says satisfies the built
    model, the decoder gives [arr] back from it, and a solver that answers
    with it makes [optimize_keymap] return [arr]. *)
Theorem layout_round_trip (penalty2 : list (list Z)) (letters : list symbol)
    (input_text : string) (m : model) (arr : list symbol) :
  NoDup letters ->
  Permutation arr letters ->
  build_model penalty2 letters input_text = Return m ->
  feasible m (layout_valuation arr) = true /\
  decode (layout_valuation arr) letters = Return (map Some arr) /\
  optimize_keymap (checking_solver (layout_valuation arr))
    penalty2 letters input_text = Return (Some (map Some arr)).
Proof.
  intros Hnd Hperm Hm.
  assert (Hf : feasible m (layout_valuation arr) = true).
  { apply (feasible_spec _ _ _ _ _ Hm). now apply layout_assignment_ok. }
  split; [exact Hf|]. split; [now apply layout_decode|].
  rewrite (optimize_keymap_built _ _ _ _ m Hm).
  unfold checking_solver. rewrite Hf. simpl.
  pose proof (layout_decode letters arr Hnd Hperm) as Hd.
  rewrite decode_spec in Hd. injection Hd as ->. reflexivity.
Qed.

Lemma layout_round_trip_witness :
  feasible toy_model (layout_valuation ["C"; "A"; "B"]) = true /\
  decode (layout_valuation ["C"; "A"; "B"]) toy_letters
  = Return (map Some ["C"; "A"; "B"]) /\
  optimize_keymap (checking_solver (layout_valuation ["C"; "A"; "B"]))
    toy_penalty toy_letters toy_text = Return (Some (map Some ["C"; "A"; "B"])).
Proof.
  apply (layout_round_trip toy_penalty toy_letters toy_text toy_model
           ["C"; "A"; "B"]).
  - exact toy_letters_NoDup.
  - unfold toy_letters.
    apply (perm_trans (l' := ["A"; "C"; "B"])); [apply perm_swap|].
    apply perm_skip. apply perm_swap.
  - vm_compute. reflexivity.
Defined.

(** X6.  Every valuation that satisfies the built model is the valuation of
    a layout: the decoder returns a rearrangement of the alphabet from it,
    and on every variable of the model, assignment or linearization, the
    valuation has the value that this rearrangement gives. *)
Theorem feasible_is_a_layout (penalty2 : list (list Z)) (letters : list symbol)
    (input_text : string) (m : model) (v : valuation) :
  build_model penalty2 letters input_text = Return m ->
  feasible m v = true ->
  exists arr,
    Permutation arr letters /\
    decode v letters = Return (map Some arr) /\
    forall x, In x (variables m) -> v x = layout_valuation arr x.
Proof.
  intros Hm Hf. pose proof Hf as Hok.
  apply (feasible_spec _ _ _ _ v Hm) in Hok.
  destruct (decoded_layout letters v Hok) as (arr & Harr & Hperm).
  exists arr. split; [exact Hperm|]. split.
  - now rewrite decode_spec, Harr.
  - intros x Hx. apply build_model_with_Return in Hm.
    destruct Hm as (terms & _ & ->). simpl in Hx.
    exact (valuation_of_layout letters v Hok arr x Harr Hx).
Qed.

Lemma feasible_is_a_layout_witness :
  exists arr,
    Permutation arr toy_letters /\
    decode (layout_valuation ["B"; "C"; "A"]) toy_letters = Return (map Some arr) /\
    forall x, In x (variables toy_model) ->
      layout_valuation ["B"; "C"; "A"] x = layout_valuation arr x.
Proof.
  apply (feasible_is_a_layout toy_penalty toy_letters toy_text toy_model).
  - vm_compute. reflexivity.
  - vm_compute. reflexivity.
Defined.

(** X7.  The built model has a valuation that satisfies it exactly when the
    letters of the alphabet are distinct: a letter listed twice is counted
    twice in the at-most-one constraint of each key and can be on no key. *)
Theorem feasible_iff_distinct_letters (penalty2 : list (list Z))
    (letters : list symbol) (input_text : string) (m : model) :
  build_model penalty2 letters input_text = Return m ->
  ((exists v, feasible m v = true) <-> NoDup letters).
Proof.
  intros Hm. split.
  - intros [v Hf]. apply (feasible_spec _ _ _ _ v Hm) in Hf.
    exact (feasible_letters_NoDup letters v Hf).
  - intros Hnd. exists (layout_valuation letters).
    apply (feasible_spec _ _ _ _ _ Hm).
    apply layout_assignment_ok; [exact Hnd | apply Permutation_refl].
Qed.

Lemma feasible_iff_distinct_letters_witness :
  (exists v, feasible toy_model v = true) <-> NoDup toy_letters.
Proof.
  apply (feasible_iff_distinct_letters toy_penalty toy_letters toy_text toy_model).
  vm_compute. reflexivity.
Defined.

(** X8.  With a letter listed twice and a solver that keeps its contract, the
    call never returns an array: once the model is built the answer is
    [None]. *)
Theorem repeated_letter_gives_None (solve : solver) (penalty2 : list (list Z))
    (letters : list symbol) (input_text : string) :
  ~ NoDup letters ->
  solver_sound solve ->
  (forall arr,
     optimize_keymap solve penalty2 letters input_text <> Return (Some arr)) /\
  (forall m, build_model penalty2 letters input_text = Return m ->
     optimize_keymap solve penalty2 letters input_text = Return None).
Proof.
  intros Hdup Hsound.
  assert (Hno : forall m, build_model penalty2 letters input_text = Return m ->
                  solved (fst (solve m)) = false).
  { intros m Hm. destruct (solved (fst (solve m))) eqn:Hst; [|reflexivity].
    exfalso. apply Hdup.
    apply (feasible_letters_NoDup letters (snd (solve m))).
    apply (feasible_spec _ _ _ _ _ Hm). now apply Hsound. }
  split.
  - intros arr H. apply optimize_keymap_Some in H.
    destruct H as (m & Hm & Hst & _). rewrite (Hno m Hm) in Hst. discriminate.
  - intros m Hm. rewrite (optimize_keymap_built solve _ _ _ m Hm).
    now rewrite (Hno m Hm).
Qed.

Lemma repeated_letter_gives_None_witness :
  (forall arr,
     optimize_keymap (checking_solver (layout_valuation ["A"; "B"; "A"]))
       toy_penalty ["A"; "B"; "A"] toy_text <> Return (Some arr)) /\
  (forall m, build_model toy_penalty ["A"; "B"; "A"] toy_text = Return m ->
     optimize_keymap (checking_solver (layout_valuation ["A"; "B"; "A"]))
       toy_penalty ["A"; "B"; "A"] toy_text = Return None).
Proof.
  apply (repeated_letter_gives_None
           (checking_solver (layout_valuation ["A"; "B"; "A"]))
           toy_penalty ["A"; "B"; "A"] toy_text).
  - intros H. apply NoDup_cons_iff in H. destruct H as [H _].
    apply H. simpl. auto.
  - apply checking_solver_sound.
Defined.

(** X9.  When the solver keeps its contract and the call returns an array,
    the objective value of the solver's valuation is the cost, read off the
    returned array, of the pairs of letters whose first letter is on the
    lower key: frequency times [penalty2[k1][k2]] summed over the ordered
    pairs of letters on keys [k1 < k2]. *)
Theorem objective_counts_forward_pairs (solve : solver)
    (penalty2 : list (list Z)) (letters : list symbol) (input_text : string)
    (arr : list (option symbol)) :
  solver_sound solve ->
  optimize_keymap solve penalty2 letters input_text = Return (Some arr) ->
  exists m,
    build_model penalty2 letters input_text = Return m /\
    feasible m (snd (solve m)) = true /\
    objective_value m (snd (solve m))
    = one_way_cost penalty2 letters input_text arr.
Proof.
  intros Hsound H. apply optimize_keymap_Some in H.
  destruct H as (m & Hm & Hst & ->).
  exists m. split; [exact Hm|].
  pose proof (Hsound m Hst) as Hf. split; [exact Hf|].
  now apply objective_value_one_way.
Qed.

Lemma objective_counts_forward_pairs_witness :
  exists m,
    build_model toy_penalty toy_letters toy_text = Return m /\
    feasible m (snd (checking_solver (layout_valuation ["B"; "A"; "C"]) m)) = true /\
    objective_value m (snd (checking_solver (layout_valuation ["B"; "A"; "C"]) m))
    = one_way_cost toy_penalty toy_letters toy_text [Some "B"; Some "A"; Some "C"].
Proof.
  apply (objective_counts_forward_pairs
           (checking_solver (layout_valuation ["B"; "A"; "C"]))
           toy_penalty toy_letters toy_text [Some "B"; Some "A"; Some "C"]).
  - apply checking_solver_sound.
  - vm_compute. reflexivity.
Defined.

(** X10.  For two letters that are not both the empty string, the frequency
    that enters the objective is 0 exactly when the first letter followed by
    the second occurs nowhere in the corpus, and it never exceeds the number
    of positions at which that string starts. *)
Theorem zero_frequency_iff_never_adjacent (input_text : string)
    (l1 l2 : symbol) :
  ~ (l1 = EmptyString /\ l2 = EmptyString) ->
  (frequency input_text l1 l2 = 0%Z
   <-> ~ exists pre post, input_text = (pre ++ (l1 ++ l2) ++ post)%string) /\
  (frequency input_text l1 l2
   <= Z.of_nat (occurrences (l1 ++ l2)%string input_text))%Z.
Proof.
  intros Hne.
  assert (Hsub : (l1 ++ l2)%string <> EmptyString)
    by (intros H; apply Hne; now apply append_empty).
  unfold frequency. rewrite (count_nonempty _ _ Hsub).
  pose proof (count_scan_le_occurrences (l1 ++ l2) input_text 0) as Hle.
  pose proof (count_scan_finds (l1 ++ l2) input_text) as Hfind.
  pose proof (occurrences_positive (l1 ++ l2) input_text Hsub) as Hocc.
  split; [|lia]. split.
  - intros H0 Hex. apply Hocc in Hex. lia.
  - intros Hno.
    destruct (Nat.eq_dec (occurrences (l1 ++ l2) input_text) 0) as [H0 | H0];
      [lia|].
    exfalso. apply Hno, Hocc. lia.
Qed.

Lemma zero_frequency_iff_never_adjacent_witness :
  (frequency "ABCAB" "C" "B" = 0%Z
   <-> ~ exists pre post, "ABCAB" = (pre ++ ("C" ++ "B") ++ post)%string) /\
  (frequency "ABCAB" "C" "B" <= Z.of_nat (occurrences ("C" ++ "B")%string "ABCAB"))%Z.
Proof.
  apply (zero_frequency_iff_never_adjacent "ABCAB" "C" "B").
  intros [H _]. discriminate.
Defined.

(** X11.  The occurrences that [str.count] counts do not overlap: for two
    letters that are not both the empty string, the frequency times the
    length of the pair is at most the length of the corpus.  In particular
    the frequency of a pair of one-character letters is at most half the
    length of the corpus. *)
Theorem frequency_fits_in_corpus (input_text : string) (l1 l2 : symbol) :
  ~ (l1 = EmptyString /\ l2 = EmptyString) ->
  (0 <= frequency input_text l1 l2)%Z /\
  (frequency input_text l1 l2
   * Z.of_nat (String.length l1 + String.length l2)
   <= Z.of_nat (String.length input_text))%Z.
Proof.
  intros Hne.
  assert (Hsub : (l1 ++ l2)%string <> EmptyString)
    by (intros H; apply Hne; now apply append_empty).
  unfold frequency. rewrite (count_nonempty _ _ Hsub).
  split; [lia|].
  pose proof (count_scan_fits (l1 ++ l2) input_text 0) as H.
  rewrite length_append in H. rewrite <- Nat2Z.inj_mul. lia.
Qed.

Lemma frequency_fits_in_corpus_witness :
  (0 <= frequency "ABABAB" "A" "B")%Z /\
  (frequency "ABABAB" "A" "B" * Z.of_nat (String.length "A" + String.length "B")
   <= Z.of_nat (String.length "ABABAB"))%Z.
Proof.
  apply (frequency_fits_in_corpus "ABABAB" "A" "B").
  intros [H _]. discriminate.
Defined.

(** X12.  The keys of the dictionary.  Every key that a constraint or the
    objective looks up has been created, so no lookup can miss.  No key is
    created twice exactly when the letters are distinct; then every created
    variable is read by a constraint.  (With a letter listed twice a key is
    created again and the dictionary keeps the later variable only.) *)
Theorem variables_created_and_used (penalty2 : list (list Z))
    (letters : list symbol) (input_text : string) (m : model) :
  build_model penalty2 letters input_text = Return m ->
  (forall x, In x (used_vars m) -> In x (variables m)) /\
  (NoDup (variables m) <-> NoDup letters) /\
  (NoDup letters ->
   forall x, In x (variables m) ->
     In x (flat_map constraint_vars (constraints m))).
Proof.
  intros Hm. apply build_model_with_Return in Hm.
  destruct Hm as (terms & Ht & ->). unfold used_vars. simpl.
  rewrite (objective_terms_Return _ _ _ _ Ht), objective_terms_vars.
  split; [|split].
  - intros x Hx. apply in_app_or in Hx. destruct Hx as [Hx | Hx].
    + now apply constraint_vars_created.
    + apply in_or_app. now right.
  - apply NoDup_model_variables.
  - intros _. apply created_vars_constrained.
Qed.

Lemma variables_created_and_used_witness :
  (forall x, In x (used_vars toy_model) -> In x (variables toy_model)) /\
  (NoDup (variables toy_model) <-> NoDup toy_letters) /\
  (NoDup toy_letters ->
   forall x, In x (variables toy_model) ->
     In x (flat_map constraint_vars (constraints toy_model))).
Proof.
  apply (variables_created_and_used toy_penalty toy_letters toy_text toy_model).
  vm_compute. reflexivity.
Defined.

(** X13.  The script prints the returned array in rows of ten: every entry
    is followed by a space, an end of line follows every tenth entry, and a
    last row of fewer than ten entries is left without an end of line.  A
    slot left at [None] is printed as the word None. *)
Theorem printed_in_rows_of_ten (rows : list (list (option symbol)))
    (rest : list (option symbol)) :
  Forall (fun row => length row = 10) rows ->
  length rest < 10 ->
  print_layout (concat rows ++ rest)
  = (join (map (fun row => (row_text row ++ newline)%string) rows)
     ++ row_text rest)%string.
Proof.
  intros Hrows Hrest. unfold print_layout, enumerate.
  exact (print_rows_from rows rest 0 Hrows Hrest).
Qed.

Lemma printed_in_rows_of_ten_witness :
  print_layout
    (concat [[Some "Q"; Some "W"; Some "E"; Some "R"; Some "T";
              Some "Y"; Some "U"; Some "I"; Some "O"; Some "P"]]
     ++ [Some "A"; None])
  = (join (map (fun row => (row_text row ++ newline)%string)
               [[Some "Q"; Some "W"; Some "E"; Some "R"; Some "T";
                 Some "Y"; Some "U"; Some "I"; Some "O"; Some "P"]])
     ++ row_text [Some "A"; None])%string.
Proof.
  apply (printed_in_rows_of_ten
           [[Some "Q"; Some "W"; Some "E"; Some "R"; Some "T";
             Some "Y"; Some "U"; Some "I"; Some "O"; Some "P"]]
           [Some "A"; None]).
  - repeat constructor.
  - simpl. lia.
Defined.

(** X15.  For an alphabet of distinct letters the built model has an optimal
    valuation, the valuation of some rearrangement of the alphabet, and a
    valuation that satisfies the model is optimal exactly when its objective
    value is at most the one-way cost of every rearrangement of the alphabet:
    minimizing the objective is the search by enumeration over all layouts,
    for the cost of the pairs typed from the lower key to the higher. *)
Theorem optimum_is_best_layout (penalty2 : list (list Z))
    (letters : list symbol) (input_text : string) (m : model) :
  NoDup letters ->
  build_model penalty2 letters input_text = Return m ->
  (exists arr, Permutation arr letters /\ optimal m (layout_valuation arr)) /\
  (forall v,
     optimal m v <->
     feasible m v = true /\
     forall arr, Permutation arr letters ->
       (objective_value m v
        <= one_way_cost penalty2 letters input_text (map Some arr))%Z).
Proof.
  intros Hnd Hm.
  assert (Hcrit : forall v,
     optimal m v <->
     feasible m v = true /\
     forall arr, Permutation arr letters ->
       (objective_value m v
        <= one_way_cost penalty2 letters input_text (map Some arr))%Z).
  { intros v. split.
    - intros [Hf Hmin]. split; [exact Hf|]. intros arr Hperm.
      rewrite <- (layout_objective penalty2 letters input_text m arr Hnd Hperm Hm).
      apply Hmin. apply (feasible_spec _ _ _ _ _ Hm).
      now apply layout_assignment_ok.
    - intros [Hf Hmin]. split; [exact Hf|]. intros v' Hf'.
      rewrite (objective_value_one_way penalty2 letters input_text m v' Hm Hf').
      apply (feasible_spec _ _ _ _ _ Hm) in Hf'.
      destruct (decoded_layout letters v' Hf') as (arr & -> & Hperm).
      now apply Hmin. }
  split; [|exact Hcrit].
  destruct (least_in_list
              (fun arr => one_way_cost penalty2 letters input_text (map Some arr))
              (all_layouts letters)) as (arr & Harr & Hmin).
  { intros Hnil.
    pose proof (all_layouts_complete letters letters (Permutation_refl _)) as H.
    rewrite Hnil in H. destruct H. }
  apply all_layouts_sound in Harr.
  exists arr. split; [exact Harr|]. apply Hcrit. split.
  - apply (feasible_spec _ _ _ _ _ Hm). now apply layout_assignment_ok.
  - intros arr' Hperm'.
    rewrite (layout_objective penalty2 letters input_text m arr Hnd Harr Hm).
    apply Hmin. now apply all_layouts_complete.
Qed.

Lemma optimum_is_best_layout_witness :
  (exists arr, Permutation arr toy_letters
               /\ optimal toy_model (layout_valuation arr)) /\
  (forall v,
     optimal toy_model v <->
     feasible toy_model v = true /\
     forall arr, Permutation arr toy_letters ->
       (objective_value toy_model v
        <= one_way_cost toy_penalty toy_letters toy_text (map Some arr))%Z).
Proof.
  apply (optimum_is_best_layout toy_penalty toy_letters toy_text toy_model).
  - exact toy_letters_NoDup.
  - vm_compute. reflexivity.
Defined.

(** X16.  When every penalty above the diagonal is non-negative, the
    objective value of every valuation, feasible or not, is non-negative:
    the coefficients are products of a count and a penalty. *)
Theorem objective_nonnegative (penalty2 : list (list Z))
    (letters : list symbol) (input_text : string) (m : model) (v : valuation) :
  build_model penalty2 letters input_text = Return m ->
  (forall k1 k2, k1 < k2 -> k2 < length letters ->
     (0 <= penalty_nth penalty2 k1 k2)%Z) ->
  (forall c, In c (obj_coef m) -> (0 <= c)%Z) /\
  (0 <= objective_value m v)%Z.
Proof.
  intros Hm Hpen.
  assert (Hterm : forall t,
            In t (objective_terms_of (frequency input_text) penalty2 letters) ->
            (0 <= snd t)%Z).
  { intros t Ht. unfold objective_terms_of in Ht. apply in_flat_map in Ht.
    destruct Ht as ([l1 l2] & _ & Ht). apply in_map_iff in Ht.
    destruct Ht as ([k1 k2] & <- & Hkk). apply in_key_pairs in Hkk. simpl.
    apply Z.mul_nonneg_nonneg; [apply frequency_nonneg | apply Hpen; lia]. }
  split.
  - intros c Hc. apply build_model_with_Return in Hm.
    destruct Hm as (terms & Ht & ->). simpl in Hc.
    rewrite (objective_terms_Return _ _ _ _ Ht) in Hc.
    apply in_map_iff in Hc. destruct Hc as (t & <- & Hin). now apply Hterm.
  - rewrite (objective_value_built _ _ _ _ v Hm). apply sumZ_nonneg.
    intros t Ht. apply Z.mul_nonneg_nonneg; [now apply Hterm|].
    unfold Value. destruct (v (fst t)); simpl; lia.
Qed.

Lemma objective_nonnegative_witness :
  (forall c, In c (obj_coef toy_model) -> (0 <= c)%Z) /\
  (0 <= objective_value toy_model (layout_valuation ["C"; "B"]))%Z.
Proof.
  apply (objective_nonnegative toy_penalty toy_letters toy_text toy_model).
  - vm_compute. reflexivity.
  - intros k1 k2 H1 H2. simpl in H2.
    destruct k2 as [|[|[|k2]]]; destruct k1 as [|[|k1]];
      try lia; vm_compute; discriminate.
Defined.

(** X17.  The returned array depends on the solver only through the status
    and the values of the assignment variables of the letters on the keys
    below [N]: the values of the linearization variables are never read by
    the decoder. *)
Theorem decoder_reads_assignment_vars (solve solve' : solver)
    (penalty2 : list (list Z)) (letters : list symbol) (input_text : string) :
  (forall m, fst (solve m) = fst (solve' m)) ->
  (forall m s k, In s letters -> k < length letters ->
     snd (solve m) (AVar s k) = snd (solve' m) (AVar s k)) ->
  optimize_keymap solve penalty2 letters input_text
  = optimize_keymap solve' penalty2 letters input_text.
Proof.
  intros Hst Hval.
  destruct (build_model penalty2 letters input_text) as [e|m] eqn:Hm.
  - unfold optimize_keymap. now rewrite Hm.
  - rewrite (optimize_keymap_built solve _ _ _ m Hm).
    rewrite (optimize_keymap_built solve' _ _ _ m Hm).
    rewrite (Hst m). destruct (solved (fst (solve' m))); [|reflexivity].
    do 2 f_equal. apply map_ext_in. intros k Hk. apply in_range in Hk.
    apply slot_ext. intros s Hs. now apply Hval.
Qed.

Lemma decoder_reads_assignment_vars_witness :
  optimize_keymap (constant_solver OPTIMAL (layout_valuation toy_letters))
    toy_penalty toy_letters toy_text
  = optimize_keymap
      (constant_solver OPTIMAL
         (fun x => match x with
                   | AVar s k => placed toy_letters s k
                   | LVar _ _ _ _ => true
                   end))
      toy_penalty toy_letters toy_text.
Proof.
  apply (decoder_reads_assignment_vars
           (constant_solver OPTIMAL (layout_valuation toy_letters))
           (constant_solver OPTIMAL
              (fun x => match x with
                        | AVar s k => placed toy_letters s k
                        | LVar _ _ _ _ => true
                        end))
           toy_penalty toy_letters toy_text).
  - intros m. reflexivity.
  - intros m s k _ _. reflexivity.
Defined.
